(** * RANLUX subtract-with-borrow engines (inc/ranlux.h)

    A shallow embedding of the inline members of [ranluxI_scalar],
    [ranluxI_SSE] and [ranluxI_AVX]: the draw operator, [getstate] and the
    32-bit word export; and of the routines of the two test programs that
    drive them: the self-consistency loops of tests/ranluxpp_test.cxx and the
    file output of tests/ranlux_test.cxx.  Machine integers are [Z] with the
    wrap-around written out; a [float] result is the exact rational it
    denotes. *)

From Stdlib Require Import ZArith List Lia QArith Bool.
Import ListNotations.
Local Open Scope Z_scope.

(** ** Fixed-width integers *)

Module Word.

(** Value of a 32-bit pattern read as [uint32_t]. *)
Definition u32 (z : Z) : Z := z mod 2 ^ 32.

(** Value of the same pattern read as [int32_t] (the [(int32_t* )_x]
    casts of the header). *)
Definition i32 (z : Z) : Z :=
  if u32 z <? 2 ^ 31 then u32 z else u32 z - 2 ^ 32.

(** [a << k] on [uint32_t]. *)
Definition shl_u32 (a k : Z) : Z := u32 (Z.shiftl a k).

(** [a >> k] on [uint32_t]. *)
Definition shr_u32 (a k : Z) : Z := Z.shiftr (u32 a) k.

(** [a << k] on [int32_t], wrapping to the 32-bit pattern. *)
Definition shl_i32 (a k : Z) : Z := i32 (Z.shiftl a k).

(** [a >> k] on [int32_t]: the arithmetic shift. *)
Definition shr_i32 (a k : Z) : Z := Z.shiftr (i32 a) k.

(** A 24-bit lane value. *)
Definition lane (v : Z) : Prop := 0 <= v < 2 ^ 24.

Definition laneb (v : Z) : bool := (0 <=? v) && (v <? 2 ^ 24).

End Word.

(** [int] times [1.0f/0x1p24f]: every [int32_t] below 2^24 in absolute
    value converts to binary32 without rounding and the scaling by a power
    of two is exact, so on lane values the product is this rational. *)
Definition tofloat24 (v : Z) : Q := Qmake v (2 ^ 24)%positive.

(** Write [v] at index [i] of an array. *)
Fixpoint store {A : Type} (i : nat) (v : A) (l : list A) : list A :=
  match l, i with
  | [], _ => []
  | _ :: t, O => v :: t
  | h :: t, S i' => h :: store i' v t
  end.

(** ** The subtract-with-borrow recurrence *)

(** One lane of the recurrence: [a - b - c] modulo 2^24 with the borrow
    out. *)
Definition swb (a b c : Z) : Z * Z :=
  let d := a - b - c in
  (d mod 2 ^ 24, if d <? 0 then 1 else 0).

(** ** The scalar engine *)

Module Scalar.

Record ranluxI_scalar : Type := mk {
  _x : list Z;   (* uint32_t _x[24] *)
  _c : Z;        (* carry bit *)
  _p : Z;        (* number of states to skip *)
  _pos : Z       (* current position in the state vector *)
}.

(** Modelled from the spec: the body of [nextstate] is in ranlux.cxx,
    which is not part of the header.  One sub-step is the recurrence of
    section 4.1, x[i] = x[i-24] - x[i-10] with the indices taken modulo 24
    and the borrow bit consumed and produced. *)
Definition sub_step (i : nat) (s : list Z * Z) : list Z * Z :=
  let '(x, c) := s in
  let '(v, c') := swb (nth i x 0) (nth ((i + 14) mod 24)%nat x 0) c in
  (store i v x, c').

(** Modelled from the spec: one state is one pass of the recurrence over
    the 24 lanes ([_p] is commented as the number of states to skip, and
    the benchmark counts 24 numbers per skipped state). *)
Definition next_one (s : list Z * Z) : list Z * Z :=
  fold_left (fun s i => sub_step i s) (seq 0 24) s.

(** Modelled from the spec: [nextstate(nstates)] advances the lanes and
    the borrow bit by [nstates] states and touches nothing else. *)
Definition nextstate (nstates : Z) (g : ranluxI_scalar) : ranluxI_scalar :=
  let '(x, c) := Nat.iter (Z.to_nat nstates) next_one (_x g, _c g) in
  mk x c (_p g) (_pos g).

(** [float operator()()] *)
Definition operator_call (g : ranluxI_scalar) : Q * ranluxI_scalar :=
  let g1 := if 24 <=? _pos g
            then nextstate (_p g) (mk (_x g) (_c g) (_p g) 0)
            else g in
  (tofloat24 (Word.i32 (nth (Z.to_nat (_pos g1)) (_x g1) 0)),
   mk (_x g1) (_c g1) (_p g1) (_pos g1 + 1)).

(** [void getstate(uint32_t *x, uint32_t &c)] *)
Definition getstate (g : ranluxI_scalar) : list Z * Z :=
  (map (fun i => nth i (_x g) 0) (seq 0 24), _c g).

(** The body of the export loop: three output words from the four
    lanes at [j .. j+3]. *)
Definition group (x : list Z) (j : nat) : list Z :=
  [ Z.lor (Word.shl_u32 (nth j x 0) 8) (Word.shr_u32 (nth (j + 1) x 0) 16);
    Z.lor (Word.shl_u32 (nth (j + 1) x 0) 16) (Word.shr_u32 (nth (j + 2) x 0) 8);
    Z.lor (Word.shl_u32 (nth (j + 2) x 0) 24) (nth (j + 3) x 0) ].

(** [for(int i=0;i<18;i+=3) { ...; j+=4; }], [n] iterations from [j]. *)
Fixpoint export_loop (n : nat) (j : nat) (x : list Z) : list Z :=
  match n with
  | O => []
  | S n' => group x j ++ export_loop n' (j + 4) x
  end.

(** [void nextstate_and_get_uint32_vector(uint32_t *x)]: the engine after
    the call and the words written to [x]. *)
Definition nextstate_and_get_uint32_vector (g : ranluxI_scalar)
  : ranluxI_scalar * list Z :=
  let g1 := nextstate (_p g) g in
  (g1, export_loop 6 0 (_x g1)).

End Scalar.

(** ** The SIMD engines

    [ranluxI_SSE] and [ranluxI_AVX] differ only in the vector type
    ([__m128i], 4 lanes; [__m256i], 8 lanes) and in the constants derived
    from its width, so both are instances of one definition over the
    width. *)

Module SIMD.

Record engine : Type := mk {
  _x : list (list Z);  (* __m128i _x[24] / __m256i _x[24]: 32-bit lanes *)
  _c : list Z;         (* carry bits, one per lane *)
  _p : Z;              (* number of states to skip *)
  _pos : Z             (* current position in the state vector *)
}.

(** The array of vectors seen through [(int32_t* )_x]: the lanes of
    [_x[0]], then those of [_x[1]], and so on. *)
Definition flat (g : engine) : list Z := concat (_x g).

(** Modelled from the spec: section 4.2 replicates the scalar recurrence
    across the vector width; this is [swb] on every lane at once. *)
Fixpoint vswb (a b c : list Z) : list Z * list Z :=
  match a, b, c with
  | a0 :: a', b0 :: b', c0 :: c' =>
      let '(v, k) := swb a0 b0 c0 in
      let '(vs, ks) := vswb a' b' c' in
      (v :: vs, k :: ks)
  | _, _, _ => ([], [])
  end.

(** Modelled from the spec: the sub-step of [Scalar.sub_step] on
    vectors. *)
Definition sub_step (i : nat) (s : list (list Z) * list Z)
  : list (list Z) * list Z :=
  let '(x, c) := s in
  let '(v, c') := vswb (nth i x []) (nth ((i + 14) mod 24)%nat x []) c in
  (store i v x, c').

Definition next_one (s : list (list Z) * list Z) : list (list Z) * list Z :=
  fold_left (fun s i => sub_step i s) (seq 0 24) s.

(** Modelled from the spec: [nextstate(nstates)], whose body is in
    ranlux.cxx, advances every lane by [nstates] states. *)
Definition nextstate (nstates : Z) (g : engine) : engine :=
  let '(x, c) := Nat.iter (Z.to_nat nstates) next_one (_x g, _c g) in
  mk x c (_p g) (_pos g).

Section Width.

(** Number of 32-bit lanes of the vector type. *)
Variable W : Z.

(** [float operator()()] *)
Definition operator_call (g : engine) : Q * engine :=
  let g1 := if W * 24 <=? _pos g
            then nextstate (_p g) (mk (_x g) (_c g) (_p g) 0)
            else g in
  (tofloat24 (Word.i32 (nth (Z.to_nat (_pos g1)) (flat g1) 0)),
   mk (_x g1) (_c g1) (_p g1) (_pos g1 + 1)).

(** The body of the export loop on [int32_t* _y], each result
    converted to the [uint32_t] it is assigned to. *)
Definition group (y : list Z) (j : nat) : list Z :=
  [ Word.u32 (Z.lor (Word.shl_i32 (nth j y 0) 8)
                    (Word.shr_i32 (nth (j + 1) y 0) 16));
    Word.u32 (Z.lor (Word.shl_i32 (nth (j + 1) y 0) 16)
                    (Word.shr_i32 (nth (j + 2) y 0) 8));
    Word.u32 (Z.lor (Word.shl_i32 (nth (j + 2) y 0) 24)
                    (Word.i32 (nth (j + 3) y 0))) ].

(** [for(int i=0;i<W*18;i+=3) { ...; j+=4; }], [n] iterations from
    [j]. *)
Fixpoint export_loop (n : nat) (j : nat) (y : list Z) : list Z :=
  match n with
  | O => []
  | S n' => group y j ++ export_loop n' (j + 4) y
  end.

(** [void nextstate_and_get_uint32_vector(uint32_t *x)] *)
Definition nextstate_and_get_uint32_vector (g : engine)
  : engine * list Z :=
  let g1 := nextstate (_p g) g in
  (g1, export_loop (Z.to_nat (W * 6)) 0 (flat g1)).

End Width.

End SIMD.

(** [ranluxI_SSE]: four parallel states. *)
Module SSE.
Definition width : Z := 4.
Definition operator_call := SIMD.operator_call width.
Definition nextstate_and_get_uint32_vector :=
  SIMD.nextstate_and_get_uint32_vector width.
End SSE.

(** [ranluxI_AVX]: eight parallel states. *)
Module AVX.
Definition width : Z := 8.
Definition operator_call := SIMD.operator_call width.
Definition nextstate_and_get_uint32_vector :=
  SIMD.nextstate_and_get_uint32_vector width.
End AVX.

(** ** Invariants and derived operations *)

Module ScalarInv.
Import Scalar.

(** The 24 lanes are present and each holds a 24-bit value. *)
Definition lanes_ok (x : list Z) : Prop :=
  length x = 24%nat /\ Forall Word.lane x.

Definition lanes_okb (x : list Z) : bool :=
  (length x =? 24)%nat && forallb Word.laneb x.

(** A well-formed engine: 24-bit lanes, a borrow bit, and a cursor
    inside the batch or just past it. *)
Definition wf (g : ranluxI_scalar) : Prop :=
  lanes_ok (_x g) /\ 0 <= _c g <= 1 /\ 0 <= _pos g <= 24.

(** The engines obtained from [g0] by the public operations. *)
Inductive reachable (g0 : ranluxI_scalar) : ranluxI_scalar -> Prop :=
| reach_start : reachable g0 g0
| reach_draw g : reachable g0 g -> reachable g0 (snd (operator_call g))
| reach_next n g : reachable g0 g -> reachable g0 (nextstate n g)
| reach_export g :
    reachable g0 g -> reachable g0 (fst (nextstate_and_get_uint32_vector g)).

(** [n] consecutive calls of [operator()]. *)
Fixpoint draws (n : nat) (g : ranluxI_scalar) : list Q * ranluxI_scalar :=
  match n with
  | O => ([], g)
  | S n' =>
      let '(v, g1) := operator_call g in
      let '(vs, g2) := draws n' g1 in
      (v :: vs, g2)
  end.

(** Output words [nw*k .. nw*k+nw-1] of the export are a function of the
    exported lanes [nl*k .. nl*k+nl-1] alone: the export packs [nl]
    consecutive lanes into [nw] words. *)
Definition packs (nl nw : nat) : Prop :=
  forall (g g' : ranluxI_scalar) (k : nat),
    wf g -> wf g' -> (nl * k + nl <= 24)%nat ->
    (forall r, (r < nl)%nat ->
       nth (nl * k + r) (_x (fst (nextstate_and_get_uint32_vector g))) 0 =
       nth (nl * k + r) (_x (fst (nextstate_and_get_uint32_vector g'))) 0) ->
    forall r, (r < nw)%nat ->
      nth (nw * k + r) (snd (nextstate_and_get_uint32_vector g)) 0 =
      nth (nw * k + r) (snd (nextstate_and_get_uint32_vector g')) 0.

(** The engine with all lanes zero except [v] in lane [i]; it skips no
    state between batches. *)
Definition probe (i : nat) (v : Z) : ranluxI_scalar :=
  mk (store i v (repeat 0 24)) 0 0 0.

(** An engine in mid-stream, used to run the operations on. *)
Definition sample : ranluxI_scalar :=
  mk (map (fun i => Z.of_nat i * 699051 + 5) (seq 0 24)) 1 17 7.

End ScalarInv.

Module SIMDInv.
Import SIMD.

(** One vector: [W] lanes, each a 24-bit value. *)
Definition vec_ok (W : nat) (v : list Z) : Prop :=
  length v = W /\ Forall Word.lane v.

Definition vec_okb (W : nat) (v : list Z) : bool :=
  (length v =? W)%nat && forallb Word.laneb v.

(** The state array: 24 such vectors. *)
Definition shape (W : nat) (x : list (list Z)) : Prop :=
  length x = 24%nat /\ Forall (vec_ok W) x.

Definition shapeb (W : nat) (x : list (list Z)) : bool :=
  (length x =? 24)%nat && forallb (vec_okb W) x.

Definition wf (W : nat) (g : engine) : Prop :=
  shape W (_x g) /\ length (_c g) = W /\
  0 <= _pos g <= Z.of_nat W * 24.

(** The engines obtained from [g0] by the public operations. *)
Inductive reachable (W : nat) (g0 : engine) : engine -> Prop :=
| reach_start : reachable W g0 g0
| reach_draw g :
    reachable W g0 g ->
    reachable W g0 (snd (operator_call (Z.of_nat W) g))
| reach_next n g : reachable W g0 g -> reachable W g0 (nextstate n g)
| reach_export g :
    reachable W g0 g ->
    reachable W g0
      (fst (nextstate_and_get_uint32_vector (Z.of_nat W) g)).

(** [n] consecutive calls of [operator()]. *)
Fixpoint draws (W : Z) (n : nat) (g : engine) : list Q * engine :=
  match n with
  | O => ([], g)
  | S n' =>
      let '(v, g1) := operator_call W g in
      let '(vs, g2) := draws W n' g1 in
      (v :: vs, g2)
  end.

(** The state a batch of draws is read from: the engine itself when the
    cursor is at the start of a batch, the advanced engine when the cursor
    is past the batch and the next draw refills it. *)
Definition batch (W : Z) (g : engine) : list (list Z) :=
  if W * 24 <=? _pos g then _x (nextstate (_p g) g) else _x g.

(** State word [k] of vector lane [l]. *)
Definition word (x : list (list Z)) (k l : nat) : Z := nth l (nth k x []) 0.

(** The 24 state words of the stream held in vector lane [l]. *)
Definition stream (x : list (list Z)) (l : nat) : list Z :=
  map (fun v => nth l v 0) x.

(** The export is lane-major and per lane: words [18 l .. 18 l + 17] are
    the scalar export of the stream of lane [l]. *)
Definition lane_major (W : nat) (g : engine) : Prop :=
  forall l, (l < W)%nat ->
    firstn 18 (skipn (18 * l)
                 (snd (nextstate_and_get_uint32_vector (Z.of_nat W) g)))
    = Scalar.export_loop 6 0
        (stream (_x (fst (nextstate_and_get_uint32_vector (Z.of_nat W) g))) l).

(** A 4-wide engine whose state word [k] holds [16 k + l + 1] in lane
    [l]; it skips no state between batches. *)
Definition probe4 : engine :=
  mk (map (fun k => map (fun l => Z.of_nat (16 * k + l + 1)) (seq 0 4))
          (seq 0 24))
     [0; 0; 0; 0] 0 0.

(** Engines in mid-stream, used to run the operations on. *)
Definition sample (W : nat) : engine :=
  mk (map (fun k => map (fun l => Z.of_nat k * 699051 + Z.of_nat l * 4099 + 5)
                        (seq 0 W))
          (seq 0 24))
     (repeat 1 W) 17 7.

(** The same engine with the cursor moved to [q]. *)
Definition at_cursor (q : Z) (g : engine) : engine :=
  mk (_x g) (_c g) (_p g) q.

End SIMDInv.

(** ** Construction

    The header declares [ranluxI_scalar(int seed, int lux)] and
    [void init(int seed)] and defines the one-argument constructor by
    delegation; the bodies are in ranlux.cxx. *)

Module Construction.

Section Seeded.

(** Modelled from the spec: the two-argument constructor, of which
    section 4.1 says only that it initializes the state, the borrow bit
    and the configuration deterministically from the seed and the
    luxury value.  It is an arbitrary function of its two arguments. *)
Variable construct : Z -> Z -> Scalar.ranluxI_scalar.

(** [ranluxI_scalar(int seed):ranluxI_scalar(seed,17){}] *)
Definition construct1 (seed : Z) : Scalar.ranluxI_scalar :=
  construct seed 17.

End Seeded.

End Construction.

(** ** Whole batches *)

Module Batches.

(** [k] refills in a row: [nextstate(_p)] applied [k] times. *)
Definition advance (k : nat) (g : Scalar.ranluxI_scalar)
  : Scalar.ranluxI_scalar :=
  Nat.iter k (fun h => Scalar.nextstate (Scalar._p h) h) g.

Definition simd_advance (k : nat) (g : SIMD.engine) : SIMD.engine :=
  Nat.iter k (fun h => SIMD.nextstate (SIMD._p h) h) g.

(** The 4- or 8-wide engine all of whose lanes hold the stream of the
    scalar engine [s], with the cursor at the same place in the batch. *)
Definition replicate (W : nat) (s : Scalar.ranluxI_scalar) : SIMD.engine :=
  SIMD.mk (map (fun v => repeat v W) (Scalar._x s))
          (repeat (Scalar._c s) W)
          (Scalar._p s)
          (Z.of_nat W * Scalar._pos s).

End Batches.

(** ** The self-consistency tests (tests/ranluxpp_test.cxx)

    [compare_ranlux_1] and [compare_ranlux_0] run the scalar engine and the
    [ranluxpp] engine side by side and compare them after every step.  The
    class [ranluxpp] and the conversions [getlcgstate] and [getranluxseq]
    are declared in ranluxpp.h; the tests use them through the operations
    below, which are parameters here. *)

Module Compare.

(** What a failing run reports. *)
Inductive failure : Type :=
| CarryMismatch (N k k2 : Z)              (* step, RANLUX carry, LCG carry *)
| LaneMismatch (N : Z) (j : nat) (y y2 : Z) (* step, index, the two numbers *)
| WordMismatch (N : Z).                    (* step *)

Inductive verdict : Type :=
| Failed (f : failure)
| Passed (N : Z).                          (* the step count it announces *)

(** The step a failure is reported at. *)
Definition step_of (f : failure) : Z :=
  match f with
  | CarryMismatch N _ _ => N
  | LaneMismatch N _ _ _ => N
  | WordMismatch N => N
  end.

(** [for(int j=0;j<n;j++) if(y[j] != y2[j]) { ...; return; }] from index
    [j]: the index it returns at, if any. *)
Fixpoint first_diff (n j : nat) (y y2 : list Z) : option nat :=
  match n with
  | O => None
  | S n' =>
      if nth j y 0 =? nth j y2 0 then first_diff n' (S j) y y2 else Some j
  end.

Section Loop.

Variables S0 S1 : Type.
Variable step0 : S0 -> S0.
Variable step1 : S1 -> S1.
Variable check : Z -> S0 -> S1 -> option failure.
Variable bound : Z.

(** [do { advance both; compare; if(i0==N){ i0 <<= 1; print; } }
    while(++N < bound);] with [N] and [i0] of type [int].  The result is
    the list of steps at which the states were printed and the verdict;
    [None] when [fuel] iterations did not reach the end. *)
Fixpoint compare_loop (fuel : nat) (N i0 : Z) (a : S0) (b : S1)
    (shown : list Z) : option (list Z * verdict) :=
  match fuel with
  | O => None
  | S fuel' =>
      let a := step0 a in
      let b := step1 b in
      match check N a b with
      | Some f => Some (shown, Failed f)
      | None =>
          let '(i0, shown) :=
            if i0 =? N then (Word.i32 (Z.shiftl i0 1), shown ++ [N])
            else (i0, shown) in
          let N := Word.i32 (N + 1) in
          if N <? bound then compare_loop fuel' N i0 a b shown
          else Some (shown, Passed N)
      end
  end.

End Loop.

Section Tests.

(** [ranluxI_scalar(int seed, int lux)], defined in ranlux.cxx. *)
Variable construct : Z -> Z -> Scalar.ranluxI_scalar.
(** The class [ranluxpp] with its constructor [ranluxpp(seed, p)], the
    nine words behind [getstate()], the assignment
    [g1.getstate()[i] = x[i]] for [i < 9], and [nextstate()]. *)
Variable ranluxpp : Type.
Variable ranluxpp_make : Z -> Z -> ranluxpp.
Variable ranluxpp_getstate : ranluxpp -> list Z.
Variable ranluxpp_setstate : ranluxpp -> list Z -> ranluxpp.
Variable ranluxpp_nextstate : ranluxpp -> ranluxpp.
(** [getlcgstate(x, y, c)] returns [x]; [getranluxseq(y, x)] returns [y]
    and the carry. *)
Variable getlcgstate : list Z -> Z -> list Z.
Variable getranluxseq : list Z -> list Z * Z.

(** Both tests start the same way: [g0(100, stride)], [g1(0, 24*stride)],
    and the state of [g1] overwritten with the converted state of [g0]. *)
Definition stride : Z := 17.

Definition start0 : Scalar.ranluxI_scalar := construct 100 stride.

Definition start1 : ranluxpp :=
  let g1 := ranluxpp_make 0 (24 * stride) in
  let '(y, k) := Scalar.getstate start0 in
  ranluxpp_setstate g1 (getlcgstate y k).

(** The comparison of [compare_ranlux_1]: the carry first, then the 24
    numbers in index order. *)
Definition check_1 (N : Z) (g0 : Scalar.ranluxI_scalar) (g1 : ranluxpp)
  : option failure :=
  let '(y, k) := Scalar.getstate g0 in
  let '(y2, k2) := getranluxseq (ranluxpp_getstate g1) in
  if negb (k =? k2) then Some (CarryMismatch N k k2)
  else match first_diff 24 0 y y2 with
       | Some j => Some (LaneMismatch N j (nth j y 0) (nth j y2 0))
       | None => None
       end.

(** The comparison of [compare_ranlux_0]: the nine words of the converted
    scalar state against the nine words of [g1]. *)
Definition check_0 (N : Z) (g0 : Scalar.ranluxI_scalar) (g1 : ranluxpp)
  : option failure :=
  let '(y, k) := Scalar.getstate g0 in
  let x := getlcgstate y k in
  match first_diff 9 0 x (ranluxpp_getstate g1) with
  | Some _ => Some (WordMismatch N)
  | None => None
  end.

Definition steps : Z := 1000 * 1000 * 100.

(** [void compare_ranlux_1()] *)
Definition compare_ranlux_1 (fuel : nat) : option (list Z * verdict) :=
  compare_loop Scalar.ranluxI_scalar ranluxpp
    (Scalar.nextstate stride) ranluxpp_nextstate check_1 steps
    fuel 1 1 start0 start1 [].

(** [void compare_ranlux_0()] *)
Definition compare_ranlux_0 (fuel : nat) : option (list Z * verdict) :=
  compare_loop Scalar.ranluxI_scalar ranluxpp
    (Scalar.nextstate stride) ranluxpp_nextstate check_0 steps
    fuel 1 1 start0 start1 [].

(** The two engines after [n] steps. *)
Definition at0 (n : nat) : Scalar.ranluxI_scalar :=
  Nat.iter n (Scalar.nextstate stride) start0.

Definition at1 (n : nat) : ranluxpp :=
  Nat.iter n ranluxpp_nextstate start1.

(** After [n] steps the converted LCG state has the carry and the 24
    numbers of the scalar engine. *)
Definition agree_1 (n : nat) : Prop :=
  snd (Scalar.getstate (at0 n))
    = snd (getranluxseq (ranluxpp_getstate (at1 n))) /\
  forall j, (j < 24)%nat ->
    nth j (fst (Scalar.getstate (at0 n))) 0
    = nth j (fst (getranluxseq (ranluxpp_getstate (at1 n)))) 0.

(** After [n] steps the converted scalar state has the nine words of the
    LCG state. *)
Definition agree_0 (n : nat) : Prop :=
  forall j, (j < 9)%nat ->
    nth j (getlcgstate (fst (Scalar.getstate (at0 n)))
                       (snd (Scalar.getstate (at0 n)))) 0
    = nth j (ranluxpp_getstate (at1 n)) 0.

(** What a report of [check_1] at step [n] says about the two states. *)
Definition report_1 (f : failure) (n : nat) : Prop :=
  let y := fst (Scalar.getstate (at0 n)) in
  let k := snd (Scalar.getstate (at0 n)) in
  let y2 := fst (getranluxseq (ranluxpp_getstate (at1 n))) in
  let k2 := snd (getranluxseq (ranluxpp_getstate (at1 n))) in
  match f with
  | CarryMismatch N c c2 => N = Z.of_nat n /\ c = k /\ c2 = k2 /\ k <> k2
  | LaneMismatch N j v v2 =>
      N = Z.of_nat n /\ k = k2 /\ (j < 24)%nat /\
      v = nth j y 0 /\ v2 = nth j y2 0 /\ v <> v2 /\
      forall i, (i < j)%nat -> nth i y 0 = nth i y2 0
  | WordMismatch _ => False
  end.

End Tests.

End Compare.

(** ** Streaming the export to a file (tests/ranlux_test.cxx)

    [output_to_file] fills a buffer with the exports of 2048 consecutive
    states, hands it to [fwrite], and repeats until [fwrite] returns less
    than the size of the buffer.  The environment is the result of [fopen]
    and the values [fwrite] returns, one per call.  What is recorded is what
    the function itself does: the buffers it hands to [fwrite], in order, and
    the counter [total]; what the C library does with a buffer is not part
    of the function. *)

Module Output.

Definition steps : nat := 2048.
Definition word_size : nat := 18.

(** [const size_t N = word_size * steps] *)
Definition N : nat := word_size * steps.

(** [for (int i=0;i<steps;++i) { g1.nextstate_and_get_uint32_vector(state);
    memcpy(p, state, word_size*sizeof(uint32_t)); p+=word_size; }]: the
    engine afterwards and the words put in the buffer. *)
Fixpoint fill (n : nat) (g : Scalar.ranluxI_scalar)
  : Scalar.ranluxI_scalar * list Z :=
  match n with
  | O => (g, [])
  | S n' =>
      let '(g1, state) := Scalar.nextstate_and_get_uint32_vector g in
      let '(g2, rest) := fill n' g1 in
      (g2, firstn word_size state ++ rest)
  end.

Inductive outcome : Type :=
| OpenFailed                       (* fopen returned NULL *)
| ShortWrite (total : Z) (offered : list (list Z))
                                   (* returned after rc < N *)
| Running (g : Scalar.ranluxI_scalar) (total : Z)
          (offered : list (list Z)).

(** [for(;;) { fill; rc = fwrite(buf, sizeof(uint32_t), N, stream);
    total += rc; if ( rc < N ) { ...; return; } }] over the results [rcs] of
    the successive calls of [fwrite]; [offered] collects the contents of
    [buf] at each call, [total] is a [uint64_t]; [Running] when the results
    are used up and the loop has not returned. *)
Fixpoint output_loop (rcs : list Z) (g : Scalar.ranluxI_scalar)
    (total : Z) (offered : list (list Z)) : outcome :=
  match rcs with
  | [] => Running g total offered
  | rc :: rcs' =>
      let '(g1, buf) := fill steps g in
      let offered := offered ++ [buf] in
      let total := (total + rc) mod 2 ^ 64 in
      if rc <? Z.of_nat N then ShortWrite total offered
      else output_loop rcs' g1 total offered
  end.

Section Seeded.

(** [ranluxI_scalar(int seed, int lux)], defined in ranlux.cxx. *)
Variable construct : Z -> Z -> Scalar.ranluxI_scalar.

(** [void output_to_file(const char * filename)] *)
Definition output_to_file (opened : bool) (rcs : list Z) : outcome :=
  if opened
  then output_loop rcs (Construction.construct1 construct 3124) 0 []
  else OpenFailed.

End Seeded.

(** The words exported by [m] calls in a row, 18 per call. *)
Definition export_stream (g : Scalar.ranluxI_scalar) (m : nat) : list Z :=
  concat (map (fun i => Scalar.export_loop 6 0
                          (Scalar._x (Batches.advance (S i) g)))
              (seq 0 m)).

(** The first [k] buffers: buffer [i] holds the exports of the 2048 states
    that follow state [2048 * i] of [g0]. *)
Definition buffers (g0 : Scalar.ranluxI_scalar) (k : nat) : list (list Z) :=
  map (fun i => export_stream (Batches.advance (steps * i) g0) steps)
      (seq 0 k).

(** The sum of values returned by [fwrite]. *)
Definition returned (rcs : list Z) : Z := fold_right Z.add 0 rcs.

(** What the loop has done when it returns or runs out of [fwrite]
    results, started after [k] buffers with the counter at [t0]. *)
Definition loop_post (g0 : Scalar.ranluxI_scalar) (k : nat) (t0 : Z)
    (rcs : list Z) (o : outcome) : Prop :=
  match o with
  | OpenFailed => False
  | ShortWrite total offered =>
      exists j : nat,
        (j < length rcs)%nat /\ nth j rcs 0 < Z.of_nat N /\
        (forall i, (i < j)%nat -> Z.of_nat N <= nth i rcs 0) /\
        total = (t0 + returned (firstn (S j) rcs)) mod 2 ^ 64 /\
        offered = buffers g0 (k + S j)
  | Running g total offered =>
      (forall i, (i < length rcs)%nat -> Z.of_nat N <= nth i rcs 0) /\
      g = Batches.advance (steps * (k + length rcs)) g0 /\
      total = (t0 + returned rcs) mod 2 ^ 64 /\
      offered = buffers g0 (k + length rcs)
  end.

End Output.

(** ** Streaming the LCG state to a file (tests/ranluxpp_test.cxx)

    The [output_to_file] of the second test program copies the nine state
    words of a [ranluxpp] engine into the buffer and then advances it, 1024
    times per buffer.  The class is a parameter, as in [Compare]; the
    buffers handed to [fwrite] and the counter are recorded as in
    [Output]. *)

Module Output64.

Definition steps : nat := 1024.

(** [const size_t N = 9 * steps] *)
Definition N : nat := 9 * steps.

Section Engine.

Variable ranluxpp : Type.
(** [ranluxpp(seed)], the nine words behind [getstate()], and
    [nextstate()]. *)
Variable ranluxpp_make1 : Z -> ranluxpp.
Variable ranluxpp_getstate : ranluxpp -> list Z.
Variable ranluxpp_nextstate : ranluxpp -> ranluxpp.

(** [memcpy(p, g1.getstate(), 9*sizeof(uint64_t))]: the nine words
    copied. *)
Definition words9 (g : ranluxpp) : list Z :=
  map (fun i => nth i (ranluxpp_getstate g) 0) (seq 0 9).

(** [for (int i=0;i<steps;++i) { memcpy(p, g1.getstate(), ...); p+=9;
    g1.nextstate(); }] *)
Fixpoint fill (n : nat) (g : ranluxpp) : ranluxpp * list Z :=
  match n with
  | O => (g, [])
  | S n' =>
      let w := words9 g in
      let '(g2, rest) := fill n' (ranluxpp_nextstate g) in
      (g2, w ++ rest)
  end.

Inductive outcome : Type :=
| OpenFailed
| ShortWrite (total : Z) (offered : list (list Z))
| Running (g : ranluxpp) (total : Z) (offered : list (list Z)).

(** [for(;;) { fill; rc = fwrite(buf, sizeof(uint64_t), N, stream);
    total += rc; if ( rc < N ) { ...; return; } }] *)
Fixpoint output_loop (rcs : list Z) (g : ranluxpp) (total : Z)
    (offered : list (list Z)) : outcome :=
  match rcs with
  | [] => Running g total offered
  | rc :: rcs' =>
      let '(g1, buf) := fill steps g in
      let offered := offered ++ [buf] in
      let total := (total + rc) mod 2 ^ 64 in
      if rc <? Z.of_nat N then ShortWrite total offered
      else output_loop rcs' g1 total offered
  end.

(** [void output_to_file(const char * filename)] *)
Definition output_to_file (opened : bool) (rcs : list Z) : outcome :=
  if opened then output_loop rcs (ranluxpp_make1 3124) 0 [] else OpenFailed.

(** The state words of [m] consecutive states, beginning with [g]
    itself. *)
Definition state_stream (g : ranluxpp) (m : nat) : list Z :=
  concat (map (fun i => words9 (Nat.iter i ranluxpp_nextstate g)) (seq 0 m)).

(** The first [k] buffers: buffer [i] holds states [1024 * i] to
    [1024 * i + 1023] of [g0]. *)
Definition buffers (g0 : ranluxpp) (k : nat) : list (list Z) :=
  map (fun i => state_stream (Nat.iter (steps * i) ranluxpp_nextstate g0)
                  steps)
      (seq 0 k).

(** What the loop has done when it returns or runs out of [fwrite]
    results, started after [k] buffers with the counter at [t0]. *)
Definition loop_post (g0 : ranluxpp) (k : nat) (t0 : Z) (rcs : list Z)
    (o : outcome) : Prop :=
  match o with
  | OpenFailed => False
  | ShortWrite total offered =>
      exists j : nat,
        (j < length rcs)%nat /\ nth j rcs 0 < Z.of_nat N /\
        (forall i, (i < j)%nat -> Z.of_nat N <= nth i rcs 0) /\
        total = (t0 + Output.returned (firstn (S j) rcs)) mod 2 ^ 64 /\
        offered = buffers g0 (k + S j)
  | Running g total offered =>
      (forall i, (i < length rcs)%nat -> Z.of_nat N <= nth i rcs 0) /\
      g = Nat.iter (steps * (k + length rcs)) ranluxpp_nextstate g0 /\
      total = (t0 + Output.returned rcs) mod 2 ^ 64 /\
      offered = buffers g0 (k + length rcs)
  end.

End Engine.

End Output64.

(** * Properties *)

(** ** Arithmetic of the shifts *)

Lemma pow2_pos (k : Z) : 0 <= k -> 0 < 2 ^ k.
Proof. intros; apply Z.pow_pos_nonneg; lia. Qed.

Lemma small_testbit (y k n : Z) :
  0 <= y < 2 ^ k -> k <= n -> Z.testbit y n = false.
Proof.
  intros Hy Hn.
  destruct (Z.eq_dec y 0) as [-> | Hne]; [apply Z.testbit_0_l |].
  apply Z.bits_above_log2; [lia |].
  assert (Z.log2 y < k) by (apply Z.log2_lt_pow2; lia).
  lia.
Qed.

(** The two operands of every [|] of the export have no bit in common,
    so the result is their sum. *)
Lemma lor_shiftl_low (a y k : Z) :
  0 <= k -> 0 <= y < 2 ^ k -> Z.lor (a * 2 ^ k) y = a * 2 ^ k + y.
Proof.
  intros Hk Hy.
  rewrite <- Z.shiftl_mul_pow2 by assumption.
  assert (H0 : Z.land (Z.shiftl a k) y = 0);
    [| rewrite <- (Z.add_lor_land (Z.shiftl a k) y), H0; lia].
  apply Z.bits_inj'; intros n Hn.
  rewrite Z.land_spec, Z.bits_0.
  destruct (Z.lt_ge_cases n k).
  - rewrite Z.shiftl_spec_low by assumption; reflexivity.
  - rewrite (small_testbit y k n) by assumption. apply andb_false_r.
Qed.

Lemma u32_small (z : Z) : 0 <= z < 2 ^ 32 -> Word.u32 z = z.
Proof. intros; unfold Word.u32; apply Z.mod_small; assumption. Qed.

Lemma i32_small (z : Z) : 0 <= z < 2 ^ 31 -> Word.i32 z = z.
Proof.
  intros H; unfold Word.i32.
  rewrite u32_small by lia.
  destruct (Z.ltb_spec z (2 ^ 31)); lia.
Qed.

Lemma u32_i32 (z : Z) : Word.u32 (Word.i32 z) = Word.u32 z.
Proof.
  unfold Word.i32, Word.u32.
  destruct (Z.ltb_spec (z mod 2 ^ 32) (2 ^ 31)).
  - apply Z.mod_mod; lia.
  - rewrite <- (Z.mod_add _ 1) by lia.
    replace (z mod 2 ^ 32 - 2 ^ 32 + 1 * 2 ^ 32) with (z mod 2 ^ 32) by lia.
    apply Z.mod_mod; lia.
Qed.

Lemma lane_i32 (v : Z) : Word.lane v -> Word.i32 v = v.
Proof. unfold Word.lane; intros; apply i32_small; lia. Qed.

Lemma laneb_spec (v : Z) : Word.laneb v = true <-> Word.lane v.
Proof. unfold Word.laneb, Word.lane; lia. Qed.

(** [v << k] on 32 bits keeps the low [32 - k] bits of [v]. *)
Lemma shl_u32_spec (v k : Z) :
  0 <= k <= 32 -> Word.shl_u32 v k = (v mod 2 ^ (32 - k)) * 2 ^ k.
Proof.
  intros Hk; unfold Word.shl_u32, Word.u32.
  rewrite Z.shiftl_mul_pow2 by lia.
  replace (2 ^ 32) with (2 ^ (32 - k) * 2 ^ k)
    by (rewrite <- Z.pow_add_r by lia; f_equal; lia).
  apply Z.mul_mod_distr_r; apply Z.pow_nonzero; lia.
Qed.

Lemma shr_u32_spec (v k : Z) :
  0 <= k -> 0 <= v < 2 ^ 32 -> Word.shr_u32 v k = v / 2 ^ k.
Proof.
  intros; unfold Word.shr_u32.
  rewrite u32_small by assumption. apply Z.shiftr_div_pow2; assumption.
Qed.

(** ** Arrays *)

Lemma store_length {A} (i : nat) (v : A) (l : list A) :
  length (store i v l) = length l.
Proof.
  revert i; induction l as [| h t IH]; intros [| i]; simpl; auto.
Qed.

Lemma store_Forall {A} (P : A -> Prop) (i : nat) (v : A) (l : list A) :
  P v -> Forall P l -> Forall P (store i v l).
Proof.
  intros Hv Hl; revert i; induction Hl as [| h t Hh Ht IH]; intros [| i];
    simpl; constructor; auto.
Qed.

Lemma nth_Forall {A} (P : A -> Prop) (l : list A) (i : nat) (d : A) :
  Forall P l -> (i < length l)%nat -> P (nth i l d).
Proof.
  intros Hl Hi; rewrite Forall_forall in Hl; apply Hl, nth_In; assumption.
Qed.

(** ** The scalar engine *)

Section ScalarFacts.
Import Scalar ScalarInv.

Lemma lanes_okb_spec (x : list Z) : lanes_okb x = true <-> lanes_ok x.
Proof.
  unfold lanes_okb, lanes_ok.
  rewrite andb_true_iff, Nat.eqb_eq, forallb_forall, Forall_forall.
  split; intros [H1 H2]; split; auto; intros v Hv; apply laneb_spec; auto.
Qed.

Lemma swb_lane (a b c : Z) : Word.lane (fst (swb a b c)).
Proof.
  unfold swb, Word.lane; simpl. apply Z.mod_pos_bound; lia.
Qed.

Lemma swb_borrow (a b c : Z) : 0 <= snd (swb a b c) <= 1.
Proof. unfold swb; simpl. destruct (_ <? 0); lia. Qed.

Lemma sub_step_ok (i : nat) (x : list Z) (c : Z) :
  lanes_ok x ->
  lanes_ok (fst (sub_step i (x, c))) /\ 0 <= snd (sub_step i (x, c)) <= 1.
Proof.
  intros [Hlen Hall]; unfold sub_step.
  pose proof (swb_lane (nth i x 0) (nth ((i + 14) mod 24)%nat x 0) c) as Hv.
  pose proof (swb_borrow (nth i x 0) (nth ((i + 14) mod 24)%nat x 0) c) as Hc.
  destruct (swb _ _ c) as [v c']; simpl in *.
  repeat split; try lia.
  - rewrite store_length; assumption.
  - apply store_Forall; assumption.
Qed.

Lemma fold_sub_step_ok (l : list nat) (s : list Z * Z) :
  lanes_ok (fst s) -> 0 <= snd s <= 1 ->
  lanes_ok (fst (fold_left (fun s i => sub_step i s) l s)) /\
  0 <= snd (fold_left (fun s i => sub_step i s) l s) <= 1.
Proof.
  revert s; induction l as [| i l IH]; intros [x c] Hx Hc; simpl in *.
  - split; assumption.
  - destruct (sub_step_ok i x c Hx) as [H1 H2].
    apply IH; assumption.
Qed.

Lemma iter_next_one_ok (n : nat) (s : list Z * Z) :
  lanes_ok (fst s) -> 0 <= snd s <= 1 ->
  lanes_ok (fst (Nat.iter n next_one s)) /\
  0 <= snd (Nat.iter n next_one s) <= 1.
Proof.
  intros Hx Hc; induction n as [| n IH]; cbn [Nat.iter].
  - split; assumption.
  - destruct IH as [H1 H2]. unfold next_one.
    apply fold_sub_step_ok; assumption.
Qed.

Lemma nextstate_fields (n : Z) (g : ranluxI_scalar) :
  _x (nextstate n g) = fst (Nat.iter (Z.to_nat n) next_one (_x g, _c g)) /\
  _c (nextstate n g) = snd (Nat.iter (Z.to_nat n) next_one (_x g, _c g)) /\
  _p (nextstate n g) = _p g /\ _pos (nextstate n g) = _pos g.
Proof.
  unfold nextstate. destruct (Nat.iter _ _ _) as [x c]; simpl; auto.
Qed.

(** Advancing keeps every lane below 2^24 and the borrow a bit. *)
Lemma nextstate_wf (n : Z) (g : ranluxI_scalar) : wf g -> wf (nextstate n g).
Proof.
  intros (Hx & Hc & Hp).
  destruct (nextstate_fields n g) as (Ex & Ec & _ & Epos).
  destruct (iter_next_one_ok (Z.to_nat n) (_x g, _c g) Hx Hc) as [H1 H2].
  unfold wf; rewrite Ex, Ec, Epos; auto.
Qed.

Lemma operator_call_wf (g : ranluxI_scalar) :
  wf g -> wf (snd (operator_call g)).
Proof.
  intros Hg; unfold operator_call.
  destruct (Z.leb_spec 24 (_pos g)) as [Hge | Hlt].
  - assert (Hz : wf (mk (_x g) (_c g) (_p g) 0))
      by (destruct Hg as (? & ? & ?); unfold wf; simpl; split; [| split]; auto; lia).
    apply (nextstate_wf (_p g)) in Hz.
    destruct (nextstate_fields (_p g) (mk (_x g) (_c g) (_p g) 0))
      as (_ & _ & _ & Epos).
    destruct Hz as (? & ? & ?). unfold wf; simpl in *.
    rewrite Epos; split; [| split]; auto; lia.
  - destruct Hg as (? & ? & ?). unfold wf; simpl. split; [| split]; auto; lia.
Qed.

Lemma reachable_wf (g0 g : ranluxI_scalar) :
  wf g0 -> reachable g0 g -> wf g.
Proof.
  intros H0 Hr; induction Hr; auto.
  - apply operator_call_wf; assumption.
  - apply nextstate_wf; assumption.
  - unfold nextstate_and_get_uint32_vector; simpl.
    apply nextstate_wf; assumption.
Qed.

Lemma tofloat24_unit (v : Z) :
  Word.lane v -> (0 <= tofloat24 v)%Q /\ (tofloat24 v < 1)%Q.
Proof.
  unfold Word.lane, tofloat24, Qle, Qlt; simpl; intros Hv.
  change (Z.pos (2 ^ 24)) with (2 ^ 24). lia.
Qed.

(** On a well-formed engine a draw returns a value of [0, 1). *)
Lemma operator_call_unit (g : ranluxI_scalar) :
  wf g ->
  (0 <= fst (operator_call g))%Q /\ (fst (operator_call g) < 1)%Q.
Proof.
  intros Hg; unfold operator_call.
  set (g1 := if 24 <=? _pos g then _ else g).
  assert (H1 : lanes_ok (_x g1) /\ 0 <= _pos g1 < 24).
  { subst g1. destruct (Z.leb_spec 24 (_pos g)) as [Hge | Hlt].
    - assert (Hz : wf (mk (_x g) (_c g) (_p g) 0))
        by (destruct Hg as (? & ? & ?); unfold wf; simpl; split; [| split]; auto; lia).
      apply (nextstate_wf (_p g)) in Hz.
      destruct (nextstate_fields (_p g) (mk (_x g) (_c g) (_p g) 0))
        as (_ & _ & _ & Epos).
      destruct Hz as (? & ? & ?). rewrite Epos; simpl; split; auto; lia.
    - destruct Hg as (? & ? & ?); split; auto; lia. }
  simpl. destruct H1 as [[Hlen Hall] Hpos].
  apply tofloat24_unit.
  assert (Hl : Word.lane (nth (Z.to_nat (_pos g1)) (_x g1) 0))
    by (apply nth_Forall; [assumption | lia]).
  rewrite lane_i32; assumption.
Qed.

End ScalarFacts.

(** ** The scalar word export *)

Section ScalarExport.
Import Scalar ScalarInv.

Lemma export_loop_length (n j : nat) (x : list Z) :
  length (export_loop n j x) = (3 * n)%nat.
Proof.
  revert j; induction n as [| n IH]; intros j; simpl; [reflexivity |].
  rewrite IH; lia.
Qed.

(** Iteration [k] of the loop writes words [3k .. 3k+2] from the lanes
    at [j + 4k]. *)
Lemma export_loop_nth (n j : nat) (x : list Z) (k r : nat) :
  (k < n)%nat -> (r < 3)%nat ->
  nth (3 * k + r) (export_loop n j x) 0 = nth r (group x (j + 4 * k)) 0.
Proof.
  revert j k; induction n as [| n IH]; intros j k Hk Hr; [lia |].
  cbn [export_loop].
  destruct k as [| k].
  - replace (j + 4 * 0)%nat with j by lia.
    rewrite app_nth1 by (simpl; lia). reflexivity.
  - rewrite app_nth2 by (simpl; lia).
    replace (3 * S k + r - length (group x j))%nat with (3 * k + r)%nat
      by (simpl; lia).
    rewrite IH by lia. f_equal. f_equal. lia.
Qed.

(** What the three shift-and-OR expressions compute on 24-bit lanes. *)
Lemma group_lanes (a b c d : Z) :
  Word.lane a -> Word.lane b -> Word.lane c -> Word.lane d ->
  Z.lor (Word.shl_u32 a 8) (Word.shr_u32 b 16) = a * 2 ^ 8 + b / 2 ^ 16 /\
  Z.lor (Word.shl_u32 b 16) (Word.shr_u32 c 8)
    = (b mod 2 ^ 16) * 2 ^ 16 + c / 2 ^ 8 /\
  Z.lor (Word.shl_u32 c 24) d = (c mod 2 ^ 8) * 2 ^ 24 + d.
Proof.
  unfold Word.lane; intros Ha Hb Hc Hd.
  rewrite !shl_u32_spec, !shr_u32_spec by lia.
  change (32 - 8) with 24; change (32 - 16) with 16; change (32 - 24) with 8.
  rewrite (Z.mod_small a (2 ^ 24)) by lia.
  assert (0 <= b / 2 ^ 16 < 2 ^ 8)
    by (split; [apply Z.div_pos; lia | apply Z.div_lt_upper_bound; lia]).
  assert (0 <= c / 2 ^ 8 < 2 ^ 16)
    by (split; [apply Z.div_pos; lia | apply Z.div_lt_upper_bound; lia]).
  rewrite !lor_shiftl_low by lia. auto.
Qed.

(** The three words are the 96-bit concatenation of the four lanes. *)
Lemma group_concat (a b c d : Z) :
  Word.lane a -> Word.lane b -> Word.lane c -> Word.lane d ->
  (a * 2 ^ 8 + b / 2 ^ 16) * 2 ^ 64
  + ((b mod 2 ^ 16) * 2 ^ 16 + c / 2 ^ 8) * 2 ^ 32
  + ((c mod 2 ^ 8) * 2 ^ 24 + d)
  = a * 2 ^ 72 + b * 2 ^ 48 + c * 2 ^ 24 + d.
Proof.
  intros _ _ _ _.
  pose proof (Z.div_mod b (2 ^ 16) ltac:(lia)).
  pose proof (Z.div_mod c (2 ^ 8) ltac:(lia)).
  lia.
Qed.

Lemma group_range (a b c d : Z) :
  Word.lane a -> Word.lane b -> Word.lane c -> Word.lane d ->
  0 <= a * 2 ^ 8 + b / 2 ^ 16 < 2 ^ 32 /\
  0 <= (b mod 2 ^ 16) * 2 ^ 16 + c / 2 ^ 8 < 2 ^ 32 /\
  0 <= (c mod 2 ^ 8) * 2 ^ 24 + d < 2 ^ 32.
Proof.
  unfold Word.lane; intros Ha Hb Hc Hd.
  assert (0 <= b / 2 ^ 16 < 2 ^ 8)
    by (split; [apply Z.div_pos; lia | apply Z.div_lt_upper_bound; lia]).
  assert (0 <= c / 2 ^ 8 < 2 ^ 16)
    by (split; [apply Z.div_pos; lia | apply Z.div_lt_upper_bound; lia]).
  pose proof (Z.mod_pos_bound b (2 ^ 16) ltac:(lia)).
  pose proof (Z.mod_pos_bound c (2 ^ 8) ltac:(lia)).
  lia.
Qed.

End ScalarExport.

Section ScalarClaims.
Import Scalar ScalarInv.

Lemma sample_wf : wf sample.
Proof.
  unfold wf; split; [apply lanes_okb_spec; reflexivity | simpl; lia].
Qed.

Lemma probe_wf (i : nat) (v : Z) : Word.lane v -> wf (probe i v).
Proof.
  intros Hv; unfold wf, probe, lanes_ok; cbn [_x _c _pos].
  rewrite store_length.
  rewrite repeat_length.
  repeat split; try lia.
  apply store_Forall; [assumption |].
  apply Forall_forall; intros z Hz; apply repeat_spec in Hz; subst z.
  unfold Word.lane; lia.
Qed.

(** Each group of three output words is a function of four exported
    lanes. *)
Lemma export_packs_4_3 : packs 4 3.
Proof.
  intros g g' k _ _ Hk Heq r Hr.
  unfold nextstate_and_get_uint32_vector in *; cbn [fst snd] in *.
  rewrite !export_loop_nth by lia.
  unfold group; cbn [Nat.add].
  pose proof (Heq 0%nat ltac:(lia)) as E0.
  pose proof (Heq 1%nat ltac:(lia)) as E1.
  pose proof (Heq 2%nat ltac:(lia)) as E2.
  pose proof (Heq 3%nat ltac:(lia)) as E3.
  replace (4 * k + 0)%nat with (4 * k)%nat in E0 by lia.
  rewrite E0, E1, E2, E3. reflexivity.
Qed.

(** C4 (as amended): the export writes exactly 18 words, and each
    iteration packs FOUR consecutive 24-bit lanes of the advanced state
    into THREE 32-bit words: the first lane and the top 8 bits of the
    second, the low 16 bits of the second and the top 16 of the third, the
    low 8 bits of the third and the fourth lane.  Read as one 96-bit
    number the three words are the four lanes side by side, and each group
    of three words depends on its four lanes only. *)
Theorem scalar_export_four_lanes_three_words :
  packs 4 3 /\
  forall g : ranluxI_scalar, wf g ->
    let x := _x (fst (nextstate_and_get_uint32_vector g)) in
    let w := snd (nextstate_and_get_uint32_vector g) in
    length w = 18%nat /\
    forall k : nat, (k < 6)%nat ->
      let a := nth (4 * k) x 0 in
      let b := nth (4 * k + 1) x 0 in
      let c := nth (4 * k + 2) x 0 in
      let d := nth (4 * k + 3) x 0 in
      let w0 := nth (3 * k) w 0 in
      let w1 := nth (3 * k + 1) w 0 in
      let w2 := nth (3 * k + 2) w 0 in
      w0 = a * 2 ^ 8 + b / 2 ^ 16 /\
      w1 = (b mod 2 ^ 16) * 2 ^ 16 + c / 2 ^ 8 /\
      w2 = (c mod 2 ^ 8) * 2 ^ 24 + d /\
      (0 <= w0 < 2 ^ 32 /\ 0 <= w1 < 2 ^ 32 /\ 0 <= w2 < 2 ^ 32) /\
      w0 * 2 ^ 64 + w1 * 2 ^ 32 + w2
        = a * 2 ^ 72 + b * 2 ^ 48 + c * 2 ^ 24 + d.
Proof.
  split; [exact export_packs_4_3 |].
  intros g Hg x w.
  assert (Hx : lanes_ok x).
  { apply (nextstate_wf (_p g)) in Hg. destruct Hg as [Hx _]. exact Hx. }
  split; [apply export_loop_length |].
  intros k Hk a b c d w0 w1 w2.
  destruct Hx as [Hlen Hall].
  assert (La : Word.lane a) by (apply nth_Forall; [assumption | lia]).
  assert (Lb : Word.lane b) by (apply nth_Forall; [assumption | lia]).
  assert (Lc : Word.lane c) by (apply nth_Forall; [assumption | lia]).
  assert (Ld : Word.lane d) by (apply nth_Forall; [assumption | lia]).
  destruct (group_lanes a b c d La Lb Lc Ld) as (G0 & G1 & G2).
  assert (E0 : w0 = a * 2 ^ 8 + b / 2 ^ 16).
  { subst w0 w. unfold nextstate_and_get_uint32_vector; cbn [snd].
    replace (3 * k)%nat with (3 * k + 0)%nat by lia.
    rewrite export_loop_nth by lia. exact G0. }
  assert (E1 : w1 = (b mod 2 ^ 16) * 2 ^ 16 + c / 2 ^ 8).
  { subst w1 w. unfold nextstate_and_get_uint32_vector; cbn [snd].
    rewrite export_loop_nth by lia. exact G1. }
  assert (E2 : w2 = (c mod 2 ^ 8) * 2 ^ 24 + d).
  { subst w2 w. unfold nextstate_and_get_uint32_vector; cbn [snd].
    rewrite export_loop_nth by lia. exact G2. }
  pose proof (group_range a b c d La Lb Lc Ld) as R.
  pose proof (group_concat a b c d La Lb Lc Ld) as C.
  rewrite E0, E1, E2. repeat split; try tauto; try lia.
Qed.

Lemma scalar_export_four_lanes_three_words_witness :
  wf sample /\
  length (snd (nextstate_and_get_uint32_vector sample)) = 18%nat.
Proof.
  split; [exact sample_wf |].
  exact (proj1 (proj2 scalar_export_four_lanes_three_words sample sample_wf)).
Defined.

(** C4 (as stated) fails: two engines whose exported lanes 3, 4 and 5
    agree (all zero) differ in output word 2, because that word carries
    the low 8 bits of lane 2.  So words 2 and 3 are not a packing of lanes
    3 to 5, and the export does not pack three lanes into two words. *)
Lemma scalar_export_not_three_into_two :
  let g := probe 2 0 in
  let g' := probe 2 1 in
  wf g /\ wf g' /\
  (forall r, (r < 3)%nat ->
     nth (3 + r) (_x (fst (nextstate_and_get_uint32_vector g))) 0 =
     nth (3 + r) (_x (fst (nextstate_and_get_uint32_vector g'))) 0) /\
  nth 2 (snd (nextstate_and_get_uint32_vector g)) 0 = 0 /\
  nth 2 (snd (nextstate_and_get_uint32_vector g')) 0 = 2 ^ 24 /\
  ~ packs 3 2.
Proof.
  intros g g'.
  assert (Hg : wf g) by (apply probe_wf; unfold Word.lane; lia).
  assert (Hg' : wf g') by (apply probe_wf; unfold Word.lane; lia).
  assert (Hl : forall r, (r < 3)%nat ->
     nth (3 + r) (_x (fst (nextstate_and_get_uint32_vector g))) 0 =
     nth (3 + r) (_x (fst (nextstate_and_get_uint32_vector g'))) 0).
  { intros [| [| [| r]]] Hr; try lia; vm_compute; reflexivity. }
  split; [exact Hg |]. split; [exact Hg' |]. split; [exact Hl |].
  split; [vm_compute; reflexivity |]. split; [vm_compute; reflexivity |].
  intros H.
  specialize (H g g' 1%nat Hg Hg' ltac:(lia) Hl 0%nat ltac:(lia)).
  vm_compute in H. discriminate H.
Qed.

End ScalarClaims.

(** ** The SIMD engines *)

Section SIMDFacts.
Import SIMD SIMDInv.

Lemma vec_okb_spec (W : nat) (v : list Z) : vec_okb W v = true <-> vec_ok W v.
Proof.
  unfold vec_okb, vec_ok.
  rewrite andb_true_iff, Nat.eqb_eq, forallb_forall, Forall_forall.
  split; intros [H1 H2]; split; auto; intros z Hz; apply laneb_spec; auto.
Qed.

Lemma shapeb_spec (W : nat) (x : list (list Z)) :
  shapeb W x = true <-> shape W x.
Proof.
  unfold shapeb, shape.
  rewrite andb_true_iff, Nat.eqb_eq, forallb_forall, Forall_forall.
  split; intros [H1 H2]; split; auto; intros z Hz; apply vec_okb_spec; auto.
Qed.

Lemma vswb_ok (a b c : list Z) :
  length b = length a -> length c = length a ->
  vec_ok (length a) (fst (vswb a b c)) /\
  length (snd (vswb a b c)) = length a.
Proof.
  revert b c; induction a as [| a0 a IH]; intros [| b0 b] [| c0 c] Hb Hc;
    simpl in *; try discriminate; unfold vec_ok.
  - auto.
  - destruct (IH b c ltac:(lia) ltac:(lia)) as [[H1 H2] H3].
    pose proof (swb_lane a0 b0 c0) as Hl. unfold swb in *; simpl in Hl.
    destruct (vswb a b c) as [vs ks]; simpl in *.
    repeat split; try lia. constructor; assumption.
Qed.

Lemma simd_sub_step_ok (W i : nat) (x : list (list Z)) (c : list Z) :
  (i < 24)%nat -> shape W x -> length c = W ->
  shape W (fst (sub_step i (x, c))) /\ length (snd (sub_step i (x, c))) = W.
Proof.
  intros Hi [Hlen Hall] Hc; unfold sub_step.
  assert (Ha : vec_ok W (nth i x []))
    by (apply nth_Forall; [assumption | lia]).
  assert (Hb : vec_ok W (nth ((i + 14) mod 24)%nat x [])).
  { apply nth_Forall; [assumption |].
    rewrite Hlen; apply Nat.mod_upper_bound; lia. }
  destruct Ha as [La _], Hb as [Lb _].
  pose proof (vswb_ok (nth i x []) (nth ((i + 14) mod 24)%nat x []) c
                ltac:(lia) ltac:(lia)) as [Hv Hk].
  destruct (vswb _ _ c) as [v c']; simpl in *.
  rewrite La in Hv, Hk.
  split; [| assumption]. split.
  - rewrite store_length; assumption.
  - apply store_Forall; assumption.
Qed.

Lemma simd_fold_sub_step_ok (W : nat) (l : list nat)
      (s : list (list Z) * list Z) :
  Forall (fun i => (i < 24)%nat) l ->
  shape W (fst s) -> length (snd s) = W ->
  shape W (fst (fold_left (fun s i => sub_step i s) l s)) /\
  length (snd (fold_left (fun s i => sub_step i s) l s)) = W.
Proof.
  intros Hl; revert s; induction Hl as [| i l Hi Hl IH];
    intros [x c] Hx Hc; cbn [fold_left fst snd] in *.
  - split; assumption.
  - destruct (simd_sub_step_ok W i x c Hi Hx Hc) as [H1 H2].
    apply IH; assumption.
Qed.

Lemma simd_iter_ok (W n : nat) (s : list (list Z) * list Z) :
  shape W (fst s) -> length (snd s) = W ->
  shape W (fst (Nat.iter n next_one s)) /\
  length (snd (Nat.iter n next_one s)) = W.
Proof.
  intros Hx Hc; induction n as [| n IH]; cbn [Nat.iter].
  - split; assumption.
  - destruct IH as [H1 H2]. unfold next_one.
    apply simd_fold_sub_step_ok; try assumption.
    apply Forall_forall; intros i Hi; apply in_seq in Hi; lia.
Qed.

Lemma simd_nextstate_fields (n : Z) (g : engine) :
  _x (nextstate n g) = fst (Nat.iter (Z.to_nat n) next_one (_x g, _c g)) /\
  _c (nextstate n g) = snd (Nat.iter (Z.to_nat n) next_one (_x g, _c g)) /\
  _p (nextstate n g) = _p g /\ _pos (nextstate n g) = _pos g.
Proof.
  unfold nextstate. destruct (Nat.iter _ _ _) as [x c]; simpl; auto.
Qed.

Lemma simd_nextstate_wf (W : nat) (n : Z) (g : engine) :
  wf W g -> wf W (nextstate n g).
Proof.
  intros (Hx & Hc & Hp).
  destruct (simd_nextstate_fields n g) as (Ex & Ec & _ & Epos).
  destruct (simd_iter_ok W (Z.to_nat n) (_x g, _c g) Hx Hc) as [H1 H2].
  unfold wf; rewrite Ex, Ec, Epos; auto.
Qed.

End SIMDFacts.

Section FlatView.
Import SIMD SIMDInv.

(** Element [i] of the flattened array is lane [i mod W] of vector
    [i / W]. *)
Lemma concat_nth_uniform (W : nat) (x : list (list Z)) (i : nat) :
  (0 < W)%nat -> Forall (fun v => length v = W) x ->
  (i < length x * W)%nat ->
  nth i (concat x) 0 = nth (i mod W) (nth (i / W) x []) 0.
Proof.
  intros HW Hx; revert i; induction Hx as [| v x Hv Hx IH]; intros i Hi.
  - simpl in Hi; lia.
  - cbn [concat length] in *.
    destruct (Nat.lt_ge_cases i W) as [Hlt | Hge].
    + rewrite app_nth1 by lia.
      rewrite Nat.div_small, Nat.mod_small by assumption. reflexivity.
    + rewrite app_nth2 by lia. rewrite Hv.
      rewrite IH by lia.
      replace i with ((i - W) + 1 * W)%nat at 3 4 by lia.
      rewrite Nat.div_add, Nat.Div0.mod_add by lia.
      replace ((i - W) / W + 1)%nat with (S ((i - W) / W)) by lia.
      reflexivity.
Qed.

Lemma shape_lengths (W : nat) (x : list (list Z)) :
  shape W x -> Forall (fun v => length v = W) x.
Proof.
  intros [_ H]. eapply Forall_impl; [| exact H]. intros v [Hv _]; exact Hv.
Qed.

Lemma shape_flat_lanes (W : nat) (x : list (list Z)) :
  shape W x -> Forall Word.lane (concat x).
Proof.
  intros [_ H]. induction H as [| v x [_ Hv] Hx IH]; simpl.
  - constructor.
  - apply Forall_app; split; assumption.
Qed.

Lemma shape_flat_length (W : nat) (x : list (list Z)) :
  shape W x -> length (concat x) = (24 * W)%nat.
Proof.
  intros [Hlen H]. rewrite <- Hlen. clear Hlen.
  induction H as [| v x [Hv _] Hx IH]; simpl; [reflexivity |].
  rewrite length_app, IH, Hv. lia.
Qed.

Lemma flat_word (W : nat) (g : engine) (i : nat) :
  (0 < W)%nat -> shape W (_x g) -> (i < 24 * W)%nat ->
  nth i (flat g) 0 = word (_x g) (i / W) (i mod W).
Proof.
  intros HW Hs Hi; unfold flat, word.
  apply concat_nth_uniform; [assumption | apply shape_lengths; assumption |].
  destruct Hs as [Hlen _]; rewrite Hlen; lia.
Qed.

End FlatView.

Section SIMDDraw.
Import SIMD SIMDInv.

Variable W : nat.
Hypothesis W_pos : (0 < W)%nat.

(** The engine a draw reads from: refilled when the cursor is past the
    batch. *)
Lemma simd_refill_wf (g : engine) :
  wf W g ->
  let g1 := if Z.of_nat W * 24 <=? _pos g
            then nextstate (_p g) (mk (_x g) (_c g) (_p g) 0)
            else g in
  shape W (_x g1) /\ length (_c g1) = W /\
  0 <= _pos g1 < Z.of_nat W * 24.
Proof.
  intros Hg g1; subst g1.
  destruct (Z.leb_spec (Z.of_nat W * 24) (_pos g)) as [Hge | Hlt].
  - assert (Hz : wf W (mk (_x g) (_c g) (_p g) 0))
      by (destruct Hg as (? & ? & ?); unfold wf; simpl;
          split; [| split]; auto; lia).
    apply (simd_nextstate_wf W (_p g)) in Hz.
    destruct (simd_nextstate_fields (_p g) (mk (_x g) (_c g) (_p g) 0))
      as (_ & _ & _ & Epos).
    destruct Hz as (? & ? & ?). rewrite Epos; simpl.
    split; [| split]; auto; lia.
  - destruct Hg as (? & ? & ?). split; [| split]; auto; lia.
Qed.

Lemma simd_operator_call_wf (g : engine) :
  wf W g -> wf W (snd (operator_call (Z.of_nat W) g)).
Proof.
  intros Hg. pose proof (simd_refill_wf g Hg) as H.
  unfold operator_call. cbv zeta in H.
  destruct (Z.of_nat W * 24 <=? _pos g);
    destruct H as (? & ? & ?); unfold wf; simpl;
    split; [| split | | split]; auto; lia.
Qed.

Lemma simd_operator_call_unit (g : engine) :
  wf W g ->
  (0 <= fst (operator_call (Z.of_nat W) g))%Q /\
  (fst (operator_call (Z.of_nat W) g) < 1)%Q.
Proof.
  intros Hg. pose proof (simd_refill_wf g Hg) as H.
  unfold operator_call. cbv zeta in H.
  set (g1 := if Z.of_nat W * 24 <=? _pos g then _ else g) in *.
  destruct H as (Hs & _ & Hpos). cbn [fst].
  apply tofloat24_unit.
  assert (Hl : Word.lane (nth (Z.to_nat (_pos g1)) (flat g1) 0)).
  { apply nth_Forall; [apply (shape_flat_lanes W); assumption |].
    unfold flat; rewrite (shape_flat_length W) by assumption. lia. }
  rewrite lane_i32; assumption.
Qed.

Lemma simd_reachable_wf (g0 g : engine) :
  wf W g0 -> reachable W g0 g -> wf W g.
Proof.
  intros H0 Hr; induction Hr; auto.
  - apply simd_operator_call_wf; assumption.
  - apply simd_nextstate_wf; assumption.
  - unfold nextstate_and_get_uint32_vector; cbn [fst].
    apply simd_nextstate_wf; assumption.
Qed.

End SIMDDraw.

(** ** Lane bound and range of the draws *)

Lemma sse_sample_wf : SIMDInv.wf 4 (SIMDInv.sample 4).
Proof.
  unfold SIMDInv.wf; split; [apply shapeb_spec; vm_compute; reflexivity |].
  split; [reflexivity | cbn; lia].
Qed.

Lemma avx_sample_wf : SIMDInv.wf 8 (SIMDInv.sample 8).
Proof.
  unfold SIMDInv.wf; split; [apply shapeb_spec; vm_compute; reflexivity |].
  split; [reflexivity | cbn; lia].
Qed.

(** X11: if the lanes of an engine are 24-bit values (an assumption on the
    start engine: how a seed fills the lanes is not modelled), then every
    engine reached from it by draws, advances and exports has all its lanes
    in [0, 2^24), and every value returned by [operator()] on such an engine
    lies in [0, 1); for the scalar, the SSE and the AVX engine. *)
Theorem lanes_24bit_draws_in_unit_interval :
  (forall g0 g : Scalar.ranluxI_scalar,
     ScalarInv.wf g0 -> ScalarInv.reachable g0 g ->
     Forall Word.lane (Scalar._x g) /\
     (0 <= fst (Scalar.operator_call g))%Q /\
     (fst (Scalar.operator_call g) < 1)%Q) /\
  (forall g0 g : SIMD.engine,
     SIMDInv.wf 4 g0 -> SIMDInv.reachable 4 g0 g ->
     Forall (Forall Word.lane) (SIMD._x g) /\
     (0 <= fst (SSE.operator_call g))%Q /\
     (fst (SSE.operator_call g) < 1)%Q) /\
  (forall g0 g : SIMD.engine,
     SIMDInv.wf 8 g0 -> SIMDInv.reachable 8 g0 g ->
     Forall (Forall Word.lane) (SIMD._x g) /\
     (0 <= fst (AVX.operator_call g))%Q /\
     (fst (AVX.operator_call g) < 1)%Q).
Proof.
  split; [| split].
  - intros g0 g H0 Hr.
    pose proof (reachable_wf g0 g H0 Hr) as Hg.
    split; [apply Hg | apply operator_call_unit; assumption].
  - intros g0 g H0 Hr.
    pose proof (simd_reachable_wf 4 ltac:(lia) g0 g H0 Hr) as Hg.
    split.
    + destruct Hg as [[_ Hs] _].
      eapply Forall_impl; [| exact Hs]. intros v [_ Hv]; exact Hv.
    + apply (simd_operator_call_unit 4); [lia | assumption].
  - intros g0 g H0 Hr.
    pose proof (simd_reachable_wf 8 ltac:(lia) g0 g H0 Hr) as Hg.
    split.
    + destruct Hg as [[_ Hs] _].
      eapply Forall_impl; [| exact Hs]. intros v [_ Hv]; exact Hv.
    + apply (simd_operator_call_unit 8); [lia | assumption].
Qed.

Lemma lanes_24bit_draws_in_unit_interval_witness :
  let g := snd (Scalar.operator_call
                  (fst (Scalar.nextstate_and_get_uint32_vector ScalarInv.sample))) in
  let g4 := snd (SSE.operator_call (SIMD.nextstate 3 (SIMDInv.sample 4))) in
  let g8 := fst (AVX.nextstate_and_get_uint32_vector (SIMDInv.sample 8)) in
  (ScalarInv.wf ScalarInv.sample /\
   Forall Word.lane (Scalar._x g) /\
   (0 <= fst (Scalar.operator_call g))%Q /\
   (fst (Scalar.operator_call g) < 1)%Q) /\
  (SIMDInv.wf 4 (SIMDInv.sample 4) /\
   Forall (Forall Word.lane) (SIMD._x g4) /\
   (0 <= fst (SSE.operator_call g4))%Q /\
   (fst (SSE.operator_call g4) < 1)%Q) /\
  (SIMDInv.wf 8 (SIMDInv.sample 8) /\
   Forall (Forall Word.lane) (SIMD._x g8) /\
   (0 <= fst (AVX.operator_call g8))%Q /\
   (fst (AVX.operator_call g8) < 1)%Q).
Proof.
  intros g g4 g8.
  destruct lanes_24bit_draws_in_unit_interval as (T1 & T4 & T8).
  split; [| split].
  - split; [exact sample_wf |].
    apply (T1 ScalarInv.sample g sample_wf).
    apply ScalarInv.reach_draw, ScalarInv.reach_export, ScalarInv.reach_start.
  - split; [exact sse_sample_wf |].
    apply (T4 (SIMDInv.sample 4) g4 sse_sample_wf).
    apply (SIMDInv.reach_draw 4), SIMDInv.reach_next, SIMDInv.reach_start.
  - split; [exact avx_sample_wf |].
    apply (T8 (SIMDInv.sample 8) g8 avx_sample_wf).
    apply (SIMDInv.reach_export 8), SIMDInv.reach_start.
Defined.

(** ** Order of the draws of the SIMD engines *)

Section SIMDOrder.
Import SIMD SIMDInv.

Variable W : nat.
Hypothesis W_pos : (0 < W)%nat.

(** Inside a batch, [n] draws read [n] consecutive elements of the
    flattened array. *)
Lemma draws_in_batch (n : nat) (g : engine) :
  0 <= _pos g -> _pos g + Z.of_nat n <= Z.of_nat W * 24 ->
  draws (Z.of_nat W) n g
  = (map (fun j => tofloat24
                     (Word.i32 (nth (Z.to_nat (_pos g) + j) (flat g) 0)))
         (seq 0 n),
     mk (_x g) (_c g) (_p g) (_pos g + Z.of_nat n)).
Proof.
  revert g; induction n as [| n IH]; intros g H0 Hn.
  - cbn [draws seq map]. rewrite Z.add_0_r. destruct g; reflexivity.
  - cbn [draws]. unfold operator_call.
    destruct (Z.leb_spec (Z.of_nat W * 24) (_pos g)) as [Hge | Hlt]; [lia |].
    rewrite IH by (cbn [_pos]; lia).
    cbn [_x _c _p _pos flat seq map]. f_equal.
    + f_equal; [f_equal; f_equal; f_equal; lia |].
      rewrite <- seq_shift, map_map.
      apply map_ext; intros j. unfold flat; cbn [_x].
      do 3 f_equal. lia.
    + f_equal; lia.
Qed.

(** A draw with the cursor past the batch is a draw from the advanced
    engine with the cursor at 0. *)
Lemma operator_call_refill (g : engine) :
  Z.of_nat W * 24 <= _pos g ->
  operator_call (Z.of_nat W) g
  = operator_call (Z.of_nat W)
      (nextstate (_p g) (mk (_x g) (_c g) (_p g) 0)).
Proof.
  intros Hge.
  destruct (simd_nextstate_fields (_p g) (mk (_x g) (_c g) (_p g) 0))
    as (_ & _ & _ & Epos).
  unfold operator_call; cbv zeta.
  rewrite !Epos; cbn [_pos].
  destruct (Z.leb_spec (Z.of_nat W * 24) (_pos g)) as [_ | Hlt]; [| lia].
  destruct (Z.leb_spec (Z.of_nat W * 24) 0) as [Hbad | _]; [lia |].
  rewrite !Epos. reflexivity.
Qed.

Lemma draws_refill (n : nat) (g : engine) :
  (0 < n)%nat -> Z.of_nat W * 24 <= _pos g ->
  fst (draws (Z.of_nat W) n g)
  = fst (draws (Z.of_nat W) n
           (nextstate (_p g) (mk (_x g) (_c g) (_p g) 0))).
Proof.
  intros Hn Hge. destruct n as [| n]; [lia |]. cbn [draws].
  rewrite <- operator_call_refill by assumption. reflexivity.
Qed.

Lemma nextstate_x_cursor (n : Z) (g : engine) (q : Z) :
  _x (nextstate n (mk (_x g) (_c g) (_p g) q)) = _x (nextstate n g).
Proof.
  destruct (simd_nextstate_fields n (mk (_x g) (_c g) (_p g) q))
    as (E1 & _).
  destruct (simd_nextstate_fields n g) as (E2 & _).
  rewrite E1, E2. reflexivity.
Qed.

(** The [i]-th draw of a batch is state word [i / W] of lane
    [i mod W]. *)
Lemma batch_draw (g : engine) (i : nat) :
  wf W g -> (_pos g = 0 \/ Z.of_nat W * 24 <= _pos g) ->
  (i < 24 * W)%nat ->
  nth i (fst (draws (Z.of_nat W) (24 * W) g)) 0%Q
  = tofloat24 (word (batch (Z.of_nat W) g) (i / W) (i mod W)).
Proof.
  intros Hg Hpos Hi.
  assert (Hcore : forall h, wf W h -> _pos h = 0 ->
            nth i (fst (draws (Z.of_nat W) (24 * W) h)) 0%Q
            = tofloat24 (word (_x h) (i / W) (i mod W))).
  { intros h Hh Hz.
    rewrite draws_in_batch by lia. cbn [fst]. rewrite Hz; cbn [Z.to_nat Nat.add].
    rewrite (nth_indep _ 0%Q (tofloat24 (Word.i32 (nth 0 (flat h) 0))))
      by (rewrite length_map, length_seq; lia).
    rewrite (map_nth (fun j => tofloat24 (Word.i32 (nth j (flat h) 0)))).
    rewrite seq_nth by lia. cbn [Nat.add].
    destruct Hh as (Hs & _ & _).
    rewrite lane_i32.
    - rewrite (flat_word W) by (assumption || lia). reflexivity.
    - apply nth_Forall; [apply (shape_flat_lanes W); assumption |].
      unfold flat; rewrite (shape_flat_length W) by assumption. lia. }
  unfold batch.
  destruct (Z.leb_spec (Z.of_nat W * 24) (_pos g)) as [Hge | Hlt].
  - rewrite draws_refill by (assumption || lia).
    rewrite Hcore.
    + rewrite nextstate_x_cursor. reflexivity.
    + apply simd_nextstate_wf.
      destruct Hg as (? & ? & ?); unfold wf; cbn [_x _c _pos].
      split; [| split]; auto; lia.
    + destruct (simd_nextstate_fields (_p g) (mk (_x g) (_c g) (_p g) 0))
        as (_ & _ & _ & Epos). rewrite Epos; reflexivity.
  - destruct Hpos as [Hz | Hbad]; [| lia]. apply Hcore; assumption.
Qed.

End SIMDOrder.

Lemma at_cursor_wf (W : nat) (q : Z) (g : SIMD.engine) :
  SIMDInv.wf W g -> 0 <= q <= Z.of_nat W * 24 ->
  SIMDInv.wf W (SIMDInv.at_cursor q g).
Proof.
  intros (Hs & Hc & _) Hq. unfold SIMDInv.wf, SIMDInv.at_cursor; simpl.
  split; [| split]; auto.
Qed.

(** C10: within one batch of width x 24 values the [i]-th call of
    [operator()] returns state word [i / width] of vector lane
    [i mod width], so consecutive draws walk through the lanes of one state
    word before moving to the next word.  The batch is the engine's own
    state when the cursor is at 0 and the advanced state when the first of
    the calls refills. *)
Theorem simd_draws_cycle_through_lanes :
  (forall (g : SIMD.engine) (i : nat),
     SIMDInv.wf 4 g -> (SIMD._pos g = 0 \/ 4 * 24 <= SIMD._pos g) ->
     (i < 4 * 24)%nat ->
     nth i (fst (SIMDInv.draws SSE.width (4 * 24) g)) 0%Q
     = tofloat24 (SIMDInv.word (SIMDInv.batch SSE.width g) (i / 4) (i mod 4))) /\
  (forall (g : SIMD.engine) (i : nat),
     SIMDInv.wf 8 g -> (SIMD._pos g = 0 \/ 8 * 24 <= SIMD._pos g) ->
     (i < 8 * 24)%nat ->
     nth i (fst (SIMDInv.draws AVX.width (8 * 24) g)) 0%Q
     = tofloat24 (SIMDInv.word (SIMDInv.batch AVX.width g) (i / 8) (i mod 8))).
Proof.
  split; intros g i Hg Hpos Hi.
  - apply (batch_draw 4 ltac:(lia) g i Hg); [exact Hpos | lia].
  - apply (batch_draw 8 ltac:(lia) g i Hg); [exact Hpos | lia].
Qed.

Lemma simd_draws_cycle_through_lanes_witness :
  let g4 := SIMDInv.at_cursor 0 (SIMDInv.sample 4) in
  let g8 := SIMDInv.at_cursor 192 (SIMDInv.sample 8) in
  (SIMDInv.wf 4 g4 /\ (SIMD._pos g4 = 0 \/ 4 * 24 <= SIMD._pos g4) /\
   (13 < 4 * 24)%nat /\
   nth 13 (fst (SIMDInv.draws SSE.width (4 * 24) g4)) 0%Q
   = tofloat24 (SIMDInv.word (SIMDInv.batch SSE.width g4) (13 / 4) (13 mod 4))) /\
  (SIMDInv.wf 8 g8 /\ (SIMD._pos g8 = 0 \/ 8 * 24 <= SIMD._pos g8) /\
   (13 < 8 * 24)%nat /\
   nth 13 (fst (SIMDInv.draws AVX.width (8 * 24) g8)) 0%Q
   = tofloat24 (SIMDInv.word (SIMDInv.batch AVX.width g8) (13 / 8) (13 mod 8))).
Proof.
  intros g4 g8.
  assert (H4 : SIMDInv.wf 4 g4)
    by (apply at_cursor_wf; [exact sse_sample_wf | lia]).
  assert (H8 : SIMDInv.wf 8 g8)
    by (apply at_cursor_wf; [exact avx_sample_wf | lia]).
  assert (P4 : SIMD._pos g4 = 0 \/ 4 * 24 <= SIMD._pos g4)
    by (left; reflexivity).
  assert (P8 : SIMD._pos g8 = 0 \/ 8 * 24 <= SIMD._pos g8)
    by (right; cbn; lia).
  assert (I4 : (13 < 4 * 24)%nat) by lia.
  assert (I8 : (13 < 8 * 24)%nat) by lia.
  split.
  - split; [exact H4 |]. split; [exact P4 |]. split; [exact I4 |].
    exact (proj1 simd_draws_cycle_through_lanes g4 13%nat H4 P4 I4).
  - split; [exact H8 |]. split; [exact P8 |]. split; [exact I8 |].
    exact (proj2 simd_draws_cycle_through_lanes g8 13%nat H8 P8 I8).
Defined.

(** ** The SIMD word export *)

Section SIMDExport.
Import SIMD SIMDInv.

Lemma u32_lor (p q : Z) :
  Word.u32 (Z.lor p q) = Z.lor (Word.u32 p) (Word.u32 q).
Proof.
  unfold Word.u32. rewrite <- !Z.land_ones by lia.
  apply Z.land_lor_distr_l.
Qed.

Lemma shiftr_lane (b k : Z) :
  0 <= k -> Word.lane b -> 0 <= Z.shiftr b k < 2 ^ 32.
Proof.
  unfold Word.lane; intros Hk Hb. rewrite Z.shiftr_div_pow2 by assumption.
  pose proof (pow2_pos k Hk).
  split; [apply Z.div_pos; lia |].
  apply Z.div_lt_upper_bound; nia.
Qed.

(** On 24-bit lanes the signed shifts of the SIMD export and the
    unsigned shifts of the scalar export give the same words. *)
Lemma simd_group_scalar (y : list Z) (j : nat) :
  Forall Word.lane y -> group y j = Scalar.group y j.
Proof.
  intros Hy.
  assert (L : forall i, Word.lane (nth i y 0)).
  { intros i. destruct (Nat.lt_ge_cases i (length y)).
    - apply nth_Forall; assumption.
    - rewrite nth_overflow by assumption. unfold Word.lane; lia. }
  unfold group, Scalar.group, Word.shl_i32, Word.shr_i32,
    Word.shl_u32, Word.shr_u32.
  rewrite !u32_lor, !u32_i32.
  rewrite !(lane_i32 _ (L _)).
  assert (U : forall i, Word.u32 (nth i y 0) = nth i y 0)
    by (intros i; apply u32_small; specialize (L i); unfold Word.lane in L;
        lia).
  rewrite !U.
  rewrite !(u32_small (Z.shiftr _ _)) by (apply shiftr_lane; [lia | apply L]).
  reflexivity.
Qed.

Lemma simd_export_loop_scalar (n j : nat) (y : list Z) :
  Forall Word.lane y -> export_loop n j y = Scalar.export_loop n j y.
Proof.
  intros Hy; revert j; induction n as [| n IH]; intros j;
    cbn [export_loop Scalar.export_loop]; [reflexivity |].
  rewrite simd_group_scalar, IH by assumption. reflexivity.
Qed.

End SIMDExport.

Section SIMDExportWords.
Import SIMD SIMDInv.

Variable W : nat.
Hypothesis W_pos : (0 < W)%nat.

Lemma simd_export_is_scalar_on_flat (g : engine) :
  wf W g ->
  snd (nextstate_and_get_uint32_vector (Z.of_nat W) g)
  = Scalar.export_loop (6 * W) 0
      (concat (_x (fst (nextstate_and_get_uint32_vector (Z.of_nat W) g)))).
Proof.
  intros Hg. unfold nextstate_and_get_uint32_vector; cbn [fst snd].
  apply (simd_nextstate_wf W (_p g)) in Hg. destruct Hg as (Hs & _ & _).
  replace (Z.to_nat (Z.of_nat W * 6)) with (6 * W)%nat by lia.
  apply simd_export_loop_scalar. apply (shape_flat_lanes W); assumption.
Qed.

(** Iteration [k] of the export builds its three words from elements
    [4k .. 4k+3] of the flattened array, that is from state word
    [(4k+r) / W], lane [(4k+r) mod W], for r = 0..3. *)
Lemma simd_export_words (g : engine) (k : nat) :
  wf W g -> (k < 6 * W)%nat ->
  let x := _x (fst (nextstate_and_get_uint32_vector (Z.of_nat W) g)) in
  let w := snd (nextstate_and_get_uint32_vector (Z.of_nat W) g) in
  let f := fun i => word x (i / W) (i mod W) in
  nth (3 * k) w 0 = f (4 * k)%nat * 2 ^ 8 + f (4 * k + 1)%nat / 2 ^ 16 /\
  nth (3 * k + 1) w 0
    = (f (4 * k + 1)%nat mod 2 ^ 16) * 2 ^ 16 + f (4 * k + 2)%nat / 2 ^ 8 /\
  nth (3 * k + 2) w 0
    = (f (4 * k + 2)%nat mod 2 ^ 8) * 2 ^ 24 + f (4 * k + 3)%nat.
Proof.
  intros Hg Hk x w f.
  assert (Ew : w = Scalar.export_loop (6 * W) 0 (concat x))
    by (apply simd_export_is_scalar_on_flat; assumption).
  assert (Hs : shape W x).
  { subst x; unfold nextstate_and_get_uint32_vector; cbn [fst].
    apply (simd_nextstate_wf W (_p g)) in Hg. apply Hg. }
  assert (Ef : forall i, (i < 24 * W)%nat -> nth i (concat x) 0 = f i).
  { intros i Hi. subst f; cbv beta. unfold word.
    apply concat_nth_uniform; [assumption | apply shape_lengths; assumption |].
    destruct Hs as [Hlen _]; rewrite Hlen; lia. }
  assert (Lf : forall i, (i < 24 * W)%nat -> Word.lane (f i)).
  { intros i Hi. rewrite <- Ef by assumption.
    apply nth_Forall; [apply (shape_flat_lanes W); assumption |].
    rewrite (shape_flat_length W) by assumption. lia. }
  destruct (group_lanes (f (4 * k)%nat) (f (4 * k + 1)%nat)
              (f (4 * k + 2)%nat) (f (4 * k + 3)%nat))
    as (G0 & G1 & G2); try (apply Lf; lia).
  rewrite Ew.
  replace (3 * k)%nat with (3 * k + 0)%nat at 1 by lia.
  rewrite !export_loop_nth by lia.
  unfold Scalar.group; cbn [nth Nat.add].
  rewrite !Ef by lia.
  auto.
Qed.

End SIMDExportWords.

Lemma quad_index_4 (k r : nat) :
  (r < 4)%nat -> ((4 * k + r) / 4 = k /\ (4 * k + r) mod 4 = r)%nat.
Proof.
  intros Hr. split.
  - symmetry; apply (Nat.div_unique _ 4 k r); lia.
  - symmetry; apply (Nat.mod_unique _ 4 k r); lia.
Qed.

Lemma quad_index_8 (k r : nat) :
  (r < 4)%nat ->
  ((4 * k + r) / 8 = k / 2 /\ (4 * k + r) mod 8 = 4 * (k mod 2) + r)%nat.
Proof.
  intros Hr.
  pose proof (Nat.div_mod_eq k 2) as E.
  pose proof (Nat.mod_upper_bound k 2 ltac:(lia)) as B.
  split.
  - symmetry; apply (Nat.div_unique _ 8 (k / 2) (4 * (k mod 2) + r)); lia.
  - symmetry; apply (Nat.mod_unique _ 8 (k / 2) (4 * (k mod 2) + r)); lia.
Qed.

(** C3 (as amended): the SIMD export advances and then applies the scalar
    bit-interleaving to the flattened array of width x 24 values, in which
    the [width] lanes of one state word are adjacent.  It writes width x 18
    words; on the 4-wide engine words [3k .. 3k+2] are built from lanes 0,
    1, 2 and 3 of state word [k], and on the 8-wide engine from lanes
    [4 (k mod 2) .. 4 (k mod 2) + 3] of state word [k / 2].  Every group of
    three output words therefore combines four different lanes. *)
Theorem simd_export_interleaves_across_lanes :
  (forall g : SIMD.engine, SIMDInv.wf 4 g ->
     let x := SIMD._x (fst (SSE.nextstate_and_get_uint32_vector g)) in
     let w := snd (SSE.nextstate_and_get_uint32_vector g) in
     length w = (4 * 18)%nat /\
     w = Scalar.export_loop (6 * 4) 0 (concat x) /\
     forall k : nat, (k < 6 * 4)%nat ->
       let a := SIMDInv.word x k 0 in
       let b := SIMDInv.word x k 1 in
       let c := SIMDInv.word x k 2 in
       let d := SIMDInv.word x k 3 in
       nth (3 * k) w 0 = a * 2 ^ 8 + b / 2 ^ 16 /\
       nth (3 * k + 1) w 0 = (b mod 2 ^ 16) * 2 ^ 16 + c / 2 ^ 8 /\
       nth (3 * k + 2) w 0 = (c mod 2 ^ 8) * 2 ^ 24 + d) /\
  (forall g : SIMD.engine, SIMDInv.wf 8 g ->
     let x := SIMD._x (fst (AVX.nextstate_and_get_uint32_vector g)) in
     let w := snd (AVX.nextstate_and_get_uint32_vector g) in
     length w = (8 * 18)%nat /\
     w = Scalar.export_loop (6 * 8) 0 (concat x) /\
     forall k : nat, (k < 6 * 8)%nat ->
       let a := SIMDInv.word x (k / 2) (4 * (k mod 2)) in
       let b := SIMDInv.word x (k / 2) (4 * (k mod 2) + 1) in
       let c := SIMDInv.word x (k / 2) (4 * (k mod 2) + 2) in
       let d := SIMDInv.word x (k / 2) (4 * (k mod 2) + 3) in
       nth (3 * k) w 0 = a * 2 ^ 8 + b / 2 ^ 16 /\
       nth (3 * k + 1) w 0 = (b mod 2 ^ 16) * 2 ^ 16 + c / 2 ^ 8 /\
       nth (3 * k + 2) w 0 = (c mod 2 ^ 8) * 2 ^ 24 + d).
Proof.
  split; intros g Hg x w.
  - assert (Ew : w = Scalar.export_loop (6 * 4) 0 (concat x))
      by (apply (simd_export_is_scalar_on_flat 4); [lia | assumption]).
    split; [rewrite Ew; apply export_loop_length |].
    split; [exact Ew |].
    intros k Hk a b c d.
    pose proof (simd_export_words 4 ltac:(lia) g k Hg Hk) as H.
    cbv beta zeta in H.
    destruct (quad_index_4 k 0 ltac:(lia)) as [D0 M0].
    destruct (quad_index_4 k 1 ltac:(lia)) as [D1 M1].
    destruct (quad_index_4 k 2 ltac:(lia)) as [D2 M2].
    destruct (quad_index_4 k 3 ltac:(lia)) as [D3 M3].
    rewrite !Nat.add_0_r in D0, M0.
    rewrite D0, M0, D1, M1, D2, M2, D3, M3 in H.
    rewrite ?Nat.add_0_r in H. exact H.
  - assert (Ew : w = Scalar.export_loop (6 * 8) 0 (concat x))
      by (apply (simd_export_is_scalar_on_flat 8); [lia | assumption]).
    split; [rewrite Ew; apply export_loop_length |].
    split; [exact Ew |].
    intros k Hk a b c d.
    pose proof (simd_export_words 8 ltac:(lia) g k Hg Hk) as H.
    cbv beta zeta in H.
    destruct (quad_index_8 k 0 ltac:(lia)) as [D0 M0].
    destruct (quad_index_8 k 1 ltac:(lia)) as [D1 M1].
    destruct (quad_index_8 k 2 ltac:(lia)) as [D2 M2].
    destruct (quad_index_8 k 3 ltac:(lia)) as [D3 M3].
    rewrite !Nat.add_0_r in D0, M0.
    rewrite D0, M0, D1, M1, D2, M2, D3, M3 in H.
    rewrite ?Nat.add_0_r in H. exact H.
Qed.

Lemma simd_export_interleaves_across_lanes_witness :
  (SIMDInv.wf 4 (SIMDInv.sample 4) /\
   length (snd (SSE.nextstate_and_get_uint32_vector (SIMDInv.sample 4)))
   = (4 * 18)%nat) /\
  (SIMDInv.wf 8 (SIMDInv.sample 8) /\
   length (snd (AVX.nextstate_and_get_uint32_vector (SIMDInv.sample 8)))
   = (8 * 18)%nat).
Proof.
  split; (split; [first [exact sse_sample_wf | exact avx_sample_wf] |]).
  - exact (proj1 (proj1 simd_export_interleaves_across_lanes
                    (SIMDInv.sample 4) sse_sample_wf)).
  - exact (proj1 (proj2 simd_export_interleaves_across_lanes
                    (SIMDInv.sample 8) avx_sample_wf)).
Defined.

Lemma probe4_wf : SIMDInv.wf 4 SIMDInv.probe4.
Proof.
  unfold SIMDInv.wf; split; [apply shapeb_spec; vm_compute; reflexivity |].
  split; [reflexivity | cbn; lia].
Qed.

(** C3 (as stated) fails on the 4-wide engine holding [16 k + l + 1] in
    lane [l] of state word [k]: output word 1 is
    [(2 << 16) | (3 >> 8)], built from lanes 1 and 2 of state word 0, whereas
    the scalar export of lane 0 alone has [(17 << 16) | (33 >> 8)] there. *)
Lemma simd_export_not_lane_major :
  SIMDInv.wf 4 SIMDInv.probe4 /\
  nth 1 (snd (SSE.nextstate_and_get_uint32_vector SIMDInv.probe4)) 0
    = 2 * 2 ^ 16 /\
  nth 1 (Scalar.export_loop 6 0
           (SIMDInv.stream
              (SIMD._x (fst (SSE.nextstate_and_get_uint32_vector
                               SIMDInv.probe4))) 0)) 0
    = 17 * 2 ^ 16 /\
  ~ SIMDInv.lane_major 4 SIMDInv.probe4.
Proof.
  split; [exact probe4_wf |].
  split; [vm_compute; reflexivity |].
  split; [vm_compute; reflexivity |].
  intros H. specialize (H 0%nat ltac:(lia)).
  vm_compute in H. discriminate H.
Qed.

(** ** Draws compose *)

Section DrawsCompose.
Import Scalar ScalarInv.

(** The first [n] of [n + m] draws are the [n] draws, and the rest are
    the draws of the engine they leave behind. *)
Lemma draws_app (n m : nat) (g : ranluxI_scalar) :
  draws (n + m) g
  = (fst (draws n g) ++ fst (draws m (snd (draws n g))),
     snd (draws m (snd (draws n g)))).
Proof.
  revert g; induction n as [| n IH]; intros g; cbn [Nat.add draws].
  - cbn [fst snd app]. destruct (draws m g); reflexivity.
  - destruct (operator_call g) as [v g1]. rewrite IH.
    destruct (draws n g1) as [vs g2]. cbn [fst snd].
    destruct (draws m g2) as [ws g3]. reflexivity.
Qed.

End DrawsCompose.

(** ** The export loses nothing *)

Section ExportInjective.
Import Scalar ScalarInv.

(** The three words of a group determine its four lanes. *)
Lemma group_inj (a b c d a' b' c' d' : Z) :
  Word.lane a -> Word.lane b -> Word.lane c -> Word.lane d ->
  Word.lane a' -> Word.lane b' -> Word.lane c' -> Word.lane d' ->
  a * 2 ^ 8 + b / 2 ^ 16 = a' * 2 ^ 8 + b' / 2 ^ 16 ->
  (b mod 2 ^ 16) * 2 ^ 16 + c / 2 ^ 8
    = (b' mod 2 ^ 16) * 2 ^ 16 + c' / 2 ^ 8 ->
  (c mod 2 ^ 8) * 2 ^ 24 + d = (c' mod 2 ^ 8) * 2 ^ 24 + d' ->
  a = a' /\ b = b' /\ c = c' /\ d = d'.
Proof.
  unfold Word.lane; intros Ha Hb Hc Hd Ha' Hb' Hc' Hd' E0 E1 E2.
  pose proof (Z.div_mod b (2 ^ 16) ltac:(lia)).
  pose proof (Z.div_mod b' (2 ^ 16) ltac:(lia)).
  pose proof (Z.div_mod c (2 ^ 8) ltac:(lia)).
  pose proof (Z.div_mod c' (2 ^ 8) ltac:(lia)).
  pose proof (Z.mod_pos_bound b (2 ^ 16) ltac:(lia)).
  pose proof (Z.mod_pos_bound b' (2 ^ 16) ltac:(lia)).
  pose proof (Z.mod_pos_bound c (2 ^ 8) ltac:(lia)).
  pose proof (Z.mod_pos_bound c' (2 ^ 8) ltac:(lia)).
  assert (0 <= b / 2 ^ 16 < 2 ^ 8)
    by (split; [apply Z.div_pos; lia | apply Z.div_lt_upper_bound; lia]).
  assert (0 <= b' / 2 ^ 16 < 2 ^ 8)
    by (split; [apply Z.div_pos; lia | apply Z.div_lt_upper_bound; lia]).
  assert (0 <= c / 2 ^ 8 < 2 ^ 16)
    by (split; [apply Z.div_pos; lia | apply Z.div_lt_upper_bound; lia]).
  assert (0 <= c' / 2 ^ 8 < 2 ^ 16)
    by (split; [apply Z.div_pos; lia | apply Z.div_lt_upper_bound; lia]).
  lia.
Qed.

Lemma lane_nth (x : list Z) (i : nat) :
  Forall Word.lane x -> Word.lane (nth i x 0).
Proof.
  intros Hx. destruct (Nat.lt_ge_cases i (length x)).
  - apply nth_Forall; assumption.
  - rewrite nth_overflow by assumption. unfold Word.lane; lia.
Qed.

(** Two arrays of [4 n] lanes with the same [3 n] exported words are the
    same array. *)
Lemma export_loop_inj (n : nat) (x y : list Z) :
  Forall Word.lane x -> Forall Word.lane y ->
  length x = (4 * n)%nat -> length y = (4 * n)%nat ->
  export_loop n 0 x = export_loop n 0 y -> x = y.
Proof.
  intros Hx Hy Lx Ly E.
  apply (nth_ext x y 0 0); [lia |].
  intros i Hi.
  set (k := (i / 4)%nat).
  assert (Hk : (k < n)%nat) by (subst k; apply Nat.Div0.div_lt_upper_bound; lia).
  assert (W : forall r, (r < 3)%nat ->
            nth r (group x (4 * k)) 0 = nth r (group y (4 * k)) 0).
  { intros r Hr.
    pose proof (export_loop_nth n 0 x k r Hk Hr) as Ex.
    pose proof (export_loop_nth n 0 y k r Hk Hr) as Ey.
    cbn [Nat.add] in Ex, Ey. rewrite <- Ex, <- Ey, E. reflexivity. }
  pose proof (W 0%nat ltac:(lia)) as W0.
  pose proof (W 1%nat ltac:(lia)) as W1.
  pose proof (W 2%nat ltac:(lia)) as W2.
  unfold group in W0, W1, W2; cbn [nth] in W0, W1, W2.
  destruct (group_lanes (nth (4 * k) x 0) (nth (4 * k + 1) x 0)
              (nth (4 * k + 2) x 0) (nth (4 * k + 3) x 0))
    as (X0 & X1 & X2); try (apply lane_nth; assumption).
  destruct (group_lanes (nth (4 * k) y 0) (nth (4 * k + 1) y 0)
              (nth (4 * k + 2) y 0) (nth (4 * k + 3) y 0))
    as (Y0 & Y1 & Y2); try (apply lane_nth; assumption).
  rewrite X0, Y0 in W0. rewrite X1, Y1 in W1. rewrite X2, Y2 in W2.
  destruct (group_inj _ _ _ _ _ _ _ _
              (lane_nth x (4 * k) Hx) (lane_nth x (4 * k + 1) Hx)
              (lane_nth x (4 * k + 2) Hx) (lane_nth x (4 * k + 3) Hx)
              (lane_nth y (4 * k) Hy) (lane_nth y (4 * k + 1) Hy)
              (lane_nth y (4 * k + 2) Hy) (lane_nth y (4 * k + 3) Hy)
              W0 W1 W2) as (I0 & I1 & I2 & I3).
  pose proof (Nat.div_mod_eq i 4) as Ei. fold k in Ei.
  pose proof (Nat.mod_upper_bound i 4 ltac:(lia)) as Bi.
  destruct (i mod 4)%nat as [| [| [| [| r]]]] eqn:Er; try lia.
  - replace i with (4 * k)%nat by lia. exact I0.
  - replace i with (4 * k + 1)%nat by lia. exact I1.
  - replace i with (4 * k + 2)%nat by lia. exact I2.
  - replace i with (4 * k + 3)%nat by lia. exact I3.
Qed.

End ExportInjective.

Lemma app_inj_length {A} (u v a b : list A) :
  length u = length v -> u ++ a = v ++ b -> u = v /\ a = b.
Proof.
  revert v; induction u as [| h u IH]; intros [| h' v] L E;
    simpl in *; try discriminate; [auto |].
  injection E as -> E. destruct (IH v ltac:(lia) E) as [-> ->]. auto.
Qed.

Lemma concat_inj_uniform (W : nat) (x y : list (list Z)) :
  (0 < W)%nat ->
  Forall (fun v => length v = W) x -> Forall (fun v => length v = W) y ->
  concat x = concat y -> x = y.
Proof.
  intros HW Hx; revert y; induction Hx as [| v x Hv Hx IH];
    intros y Hy E; destruct Hy as [| u y Hu Hy]; cbn [concat] in E.
  - reflexivity.
  - destruct u; [simpl in Hu; lia | discriminate E].
  - destruct v; [simpl in Hv; lia | discriminate E].
  - destruct (app_inj_length v u _ _ ltac:(lia) E) as [-> E'].
    f_equal. apply IH; assumption.
Qed.

(** X1: the scalar export loses nothing.  Two well-formed engines whose
    exports write the same 18 words hold the same 24 lanes after the
    call. *)
Theorem scalar_export_injective (g g' : Scalar.ranluxI_scalar) :
  ScalarInv.wf g -> ScalarInv.wf g' ->
  snd (Scalar.nextstate_and_get_uint32_vector g)
  = snd (Scalar.nextstate_and_get_uint32_vector g') ->
  Scalar._x (fst (Scalar.nextstate_and_get_uint32_vector g))
  = Scalar._x (fst (Scalar.nextstate_and_get_uint32_vector g')).
Proof.
  intros Hg Hg' E.
  unfold Scalar.nextstate_and_get_uint32_vector in *; cbn [fst snd] in *.
  apply (nextstate_wf (Scalar._p g)) in Hg.
  apply (nextstate_wf (Scalar._p g')) in Hg'.
  destruct Hg as [[L1 F1] _], Hg' as [[L2 F2] _].
  apply (export_loop_inj 6); assumption.
Qed.

Lemma scalar_export_injective_witness :
  ScalarInv.wf ScalarInv.sample /\
  Scalar._x (fst (Scalar.nextstate_and_get_uint32_vector ScalarInv.sample))
  = Scalar._x (fst (Scalar.nextstate_and_get_uint32_vector ScalarInv.sample)).
Proof.
  split; [exact sample_wf |].
  exact (scalar_export_injective ScalarInv.sample ScalarInv.sample
           sample_wf sample_wf eq_refl).
Defined.

Lemma simd_export_injective_width (W : nat) (g g' : SIMD.engine) :
  (0 < W)%nat -> SIMDInv.wf W g -> SIMDInv.wf W g' ->
  snd (SIMD.nextstate_and_get_uint32_vector (Z.of_nat W) g)
  = snd (SIMD.nextstate_and_get_uint32_vector (Z.of_nat W) g') ->
  SIMD._x (fst (SIMD.nextstate_and_get_uint32_vector (Z.of_nat W) g))
  = SIMD._x (fst (SIMD.nextstate_and_get_uint32_vector (Z.of_nat W) g')).
Proof.
  intros HW Hg Hg' E.
  rewrite (simd_export_is_scalar_on_flat W HW g Hg),
    (simd_export_is_scalar_on_flat W HW g' Hg') in E.
  unfold SIMD.nextstate_and_get_uint32_vector in *; cbn [fst snd] in *.
  apply (simd_nextstate_wf W (SIMD._p g)) in Hg.
  apply (simd_nextstate_wf W (SIMD._p g')) in Hg'.
  destruct Hg as (S1 & _ & _), Hg' as (S2 & _ & _).
  apply (concat_inj_uniform W); try (apply shape_lengths; assumption);
    [assumption |].
  apply (export_loop_inj (6 * W)); try (apply (shape_flat_lanes W); assumption);
    try (rewrite (shape_flat_length W) by assumption; lia).
  exact E.
Qed.

(** X2: the SIMD exports lose nothing either.  Two well-formed 4-wide (or
    8-wide) engines whose exports write the same 72 (144) words hold the
    same 24 vectors after the call. *)
Theorem simd_export_injective :
  (forall g g' : SIMD.engine,
     SIMDInv.wf 4 g -> SIMDInv.wf 4 g' ->
     snd (SSE.nextstate_and_get_uint32_vector g)
     = snd (SSE.nextstate_and_get_uint32_vector g') ->
     SIMD._x (fst (SSE.nextstate_and_get_uint32_vector g))
     = SIMD._x (fst (SSE.nextstate_and_get_uint32_vector g'))) /\
  (forall g g' : SIMD.engine,
     SIMDInv.wf 8 g -> SIMDInv.wf 8 g' ->
     snd (AVX.nextstate_and_get_uint32_vector g)
     = snd (AVX.nextstate_and_get_uint32_vector g') ->
     SIMD._x (fst (AVX.nextstate_and_get_uint32_vector g))
     = SIMD._x (fst (AVX.nextstate_and_get_uint32_vector g'))).
Proof.
  split; intros g g' Hg Hg' E.
  - apply (simd_export_injective_width 4); [lia | assumption ..].
  - apply (simd_export_injective_width 8); [lia | assumption ..].
Qed.

Lemma simd_export_injective_witness :
  SIMDInv.wf 4 (SIMDInv.sample 4) /\ SIMDInv.wf 8 (SIMDInv.sample 8) /\
  SIMD._x (fst (SSE.nextstate_and_get_uint32_vector (SIMDInv.sample 4)))
  = SIMD._x (fst (SSE.nextstate_and_get_uint32_vector (SIMDInv.sample 4))) /\
  SIMD._x (fst (AVX.nextstate_and_get_uint32_vector (SIMDInv.sample 8)))
  = SIMD._x (fst (AVX.nextstate_and_get_uint32_vector (SIMDInv.sample 8))).
Proof.
  split; [exact sse_sample_wf |]. split; [exact avx_sample_wf |]. split.
  - exact (proj1 simd_export_injective _ _ sse_sample_wf sse_sample_wf eq_refl).
  - exact (proj2 simd_export_injective _ _ avx_sample_wf avx_sample_wf eq_refl).
Defined.

(** ** Draws over whole batches *)

Section ScalarBatches.
Import Scalar ScalarInv Batches.

Lemma map_nth_seq {A B} (f : A -> B) (l : list A) (d : A) :
  map (fun j => f (nth j l d)) (seq 0 (length l)) = map f l.
Proof.
  induction l as [| h t IH]; [reflexivity |].
  cbn [length seq map nth]. f_equal.
  rewrite <- seq_shift, map_map. exact IH.
Qed.

(** Inside a batch, [n] draws read [n] consecutive lanes. *)
Lemma scalar_draws_in_batch (n : nat) (g : ranluxI_scalar) :
  0 <= _pos g -> _pos g + Z.of_nat n <= 24 ->
  draws n g
  = (map (fun j => tofloat24
                     (Word.i32 (nth (Z.to_nat (_pos g) + j) (_x g) 0)))
         (seq 0 n),
     mk (_x g) (_c g) (_p g) (_pos g + Z.of_nat n)).
Proof.
  revert g; induction n as [| n IH]; intros g H0 Hn.
  - cbn [draws seq map]. rewrite Z.add_0_r. destruct g; reflexivity.
  - cbn [draws]. unfold operator_call.
    destruct (Z.leb_spec 24 (_pos g)) as [Hge | Hlt]; [lia |].
    rewrite IH by (cbn [_pos]; lia).
    cbn [_x _c _p _pos seq map]. f_equal.
    + f_equal; [f_equal; f_equal; f_equal; lia |].
      rewrite <- seq_shift, map_map.
      apply map_ext; intros j. do 3 f_equal. lia.
    + f_equal; lia.
Qed.

Lemma scalar_operator_call_refill (g : ranluxI_scalar) :
  24 <= _pos g ->
  operator_call g
  = operator_call (nextstate (_p g) (mk (_x g) (_c g) (_p g) 0)).
Proof.
  intros Hge.
  destruct (nextstate_fields (_p g) (mk (_x g) (_c g) (_p g) 0))
    as (_ & _ & _ & Epos).
  unfold operator_call; cbv zeta.
  rewrite !Epos; cbn [_pos].
  destruct (Z.leb_spec 24 (_pos g)) as [_ | Hlt]; [| lia].
  destruct (Z.leb_spec 24 0) as [Hbad | _]; [lia |].
  rewrite !Epos. reflexivity.
Qed.

Lemma scalar_draws_refill (n : nat) (g : ranluxI_scalar) :
  (0 < n)%nat -> 24 <= _pos g ->
  draws n g = draws n (nextstate (_p g) (mk (_x g) (_c g) (_p g) 0)).
Proof.
  intros Hn Hge. destruct n as [| n]; [lia |]. cbn [draws].
  rewrite <- scalar_operator_call_refill by assumption. reflexivity.
Qed.

Lemma nextstate_cursor (n : Z) (g : ranluxI_scalar) (q : Z) :
  nextstate n (mk (_x g) (_c g) (_p g) q)
  = mk (_x (nextstate n g)) (_c (nextstate n g)) (_p g) q.
Proof.
  unfold nextstate; cbn [_x _c _p _pos].
  destruct (Nat.iter _ _ _) as [x c]. reflexivity.
Qed.

(** One batch: with the cursor at the end, 24 draws advance once and
    deliver the 24 lanes of the advanced state in index order. *)
Lemma scalar_one_batch (g : ranluxI_scalar) :
  wf g -> _pos g = 24 ->
  draws 24 g
  = (map tofloat24 (_x (nextstate (_p g) g)), nextstate (_p g) g).
Proof.
  intros Hg Hpos.
  pose proof (nextstate_wf (_p g) g Hg) as Hn.
  destruct (nextstate_fields (_p g) g) as (_ & _ & Ep & Epos).
  rewrite scalar_draws_refill by lia.
  rewrite nextstate_cursor.
  rewrite scalar_draws_in_batch by (cbn [_pos]; lia).
  cbn [_x _c _p _pos Z.to_nat Nat.add Z.add Z.of_nat].
  destruct Hn as ((Hlen & Hall) & _).
  f_equal.
  - rewrite <- (map_nth_seq tofloat24 (_x (nextstate (_p g) g)) 0), Hlen.
    apply map_ext_in; intros j Hj. apply in_seq in Hj.
    rewrite lane_i32; [reflexivity |].
    apply nth_Forall; [assumption | lia].
  - revert Ep Epos.
    destruct (nextstate (_p g) g) as [x c p q]; cbn [_x _c _p _pos].
    intros -> ->. f_equal. lia.
Qed.

Lemma advance_fields (k : nat) (g : ranluxI_scalar) :
  wf g -> wf (advance k g) /\ _pos (advance k g) = _pos g /\
  _p (advance k g) = _p g.
Proof.
  intros Hg; induction k as [| k (Hw & Hpos & Hp)].
  - cbn; auto.
  - change (advance (S k) g)
      with (nextstate (_p (advance k g)) (advance k g)).
    destruct (nextstate_fields (_p (advance k g)) (advance k g))
      as (_ & _ & Ep & Epos).
    split; [apply nextstate_wf; assumption |].
    rewrite Ep, Epos; auto.
Qed.

Lemma advance_succ_r (k : nat) (g : ranluxI_scalar) :
  advance (S k) g = advance k (nextstate (_p g) g).
Proof.
  unfold advance.
  exact (Nat.iter_succ_r k _ (fun h => nextstate (_p h) h) g).
Qed.

End ScalarBatches.

(** X3: starting with the cursor at the end of a batch, [24 k] draws of
    the scalar engine advance the state exactly [k] times, by [_p] states
    each, and deliver the 24 lanes of each advanced state once, in index
    order and scaled by 2^-24; no lane is skipped or delivered twice, and
    the engine ends as the [k]-th advanced state with the cursor again at the
    end of the batch. *)
Theorem scalar_draws_deliver_whole_batches
    (k : nat) (g : Scalar.ranluxI_scalar) :
  ScalarInv.wf g -> Scalar._pos g = 24 ->
  ScalarInv.draws (24 * k) g
  = (concat (map (fun j => map tofloat24
                             (Scalar._x (Batches.advance (S j) g)))
                 (seq 0 k)),
     Batches.advance k g).
Proof.
  revert g; induction k as [| k IH]; intros g Hg Hpos.
  - reflexivity.
  - replace (24 * S k)%nat with (24 + 24 * k)%nat by lia.
    rewrite draws_app, scalar_one_batch by assumption. cbn [fst snd].
    assert (Hn : ScalarInv.wf (Scalar.nextstate (Scalar._p g) g))
      by (apply nextstate_wf; assumption).
    assert (Hq : Scalar._pos (Scalar.nextstate (Scalar._p g) g) = 24)
      by (destruct (nextstate_fields (Scalar._p g) g) as (_ & _ & _ & E);
          rewrite E; assumption).
    rewrite (IH _ Hn Hq). cbn [fst snd seq map concat].
    rewrite <- seq_shift, map_map.
    rewrite <- advance_succ_r.
    replace (map (fun j => map tofloat24
                    (Scalar._x (Batches.advance (S j)
                                  (Scalar.nextstate (Scalar._p g) g))))
                 (seq 0 k))
      with (map (fun j => map tofloat24
                    (Scalar._x (Batches.advance (S (S j)) g))) (seq 0 k))
      by (apply map_ext; intros j; rewrite <- advance_succ_r; reflexivity).
    reflexivity.
Qed.

Lemma scalar_draws_deliver_whole_batches_witness :
  let g := Scalar.mk (Scalar._x ScalarInv.sample) (Scalar._c ScalarInv.sample)
                     (Scalar._p ScalarInv.sample) 24 in
  ScalarInv.wf g /\ Scalar._pos g = 24 /\
  ScalarInv.draws (24 * 3) g
  = (concat (map (fun j => map tofloat24
                             (Scalar._x (Batches.advance (S j) g)))
                 (seq 0 3)),
     Batches.advance 3 g).
Proof.
  intros g.
  assert (Hg : ScalarInv.wf g).
  { destruct sample_wf as (H1 & H2 & _). unfold ScalarInv.wf, g; cbn.
    split; [exact H1 | split; [cbn in H2; exact H2 | lia]]. }
  split; [exact Hg |]. split; [reflexivity |].
  exact (scalar_draws_deliver_whole_batches 3 g Hg eq_refl).
Defined.

Section SIMDBatches.
Import SIMD SIMDInv Batches.

Variable W : nat.
Hypothesis W_pos : (0 < W)%nat.

Lemma simd_draws_app (n m : nat) (g : engine) :
  draws (Z.of_nat W) (n + m) g
  = (fst (draws (Z.of_nat W) n g)
       ++ fst (draws (Z.of_nat W) m (snd (draws (Z.of_nat W) n g))),
     snd (draws (Z.of_nat W) m (snd (draws (Z.of_nat W) n g)))).
Proof.
  revert g; induction n as [| n IH]; intros g; cbn [Nat.add draws].
  - cbn [fst snd app]. destruct (draws _ m g); reflexivity.
  - destruct (operator_call _ g) as [v g1]. rewrite IH.
    destruct (draws _ n g1) as [vs g2]. cbn [fst snd].
    destruct (draws _ m g2) as [ws g3]. reflexivity.
Qed.

Lemma simd_draws_refill (n : nat) (g : engine) :
  (0 < n)%nat -> Z.of_nat W * 24 <= _pos g ->
  draws (Z.of_nat W) n g
  = draws (Z.of_nat W) n (nextstate (_p g) (mk (_x g) (_c g) (_p g) 0)).
Proof.
  intros Hn Hge. destruct n as [| n]; [lia |]. cbn [draws].
  rewrite <- (operator_call_refill W W_pos) by assumption. reflexivity.
Qed.

Lemma simd_nextstate_cursor (n : Z) (g : engine) (q : Z) :
  nextstate n (mk (_x g) (_c g) (_p g) q)
  = mk (_x (nextstate n g)) (_c (nextstate n g)) (_p g) q.
Proof.
  unfold nextstate; cbn [_x _c _p _pos].
  destruct (Nat.iter _ _ _) as [x c]. reflexivity.
Qed.

(** One batch: with the cursor at the end, [24 W] draws advance once and
    deliver the flattened advanced state in memory order. *)
Lemma simd_one_batch (g : engine) :
  wf W g -> _pos g = Z.of_nat W * 24 ->
  draws (Z.of_nat W) (24 * W) g
  = (map tofloat24 (flat (nextstate (_p g) g)), nextstate (_p g) g).
Proof.
  intros Hg Hpos.
  pose proof (simd_nextstate_wf W (_p g) g Hg) as Hn.
  destruct (simd_nextstate_fields (_p g) g) as (_ & _ & Ep & Epos).
  rewrite simd_draws_refill by lia.
  rewrite simd_nextstate_cursor.
  rewrite (draws_in_batch W) by (cbn [_pos]; lia).
  cbn [_x _c _p _pos Z.to_nat Nat.add Z.add].
  destruct Hn as (Hs & _ & _).
  f_equal.
  - unfold flat at 1; cbn [_x]. fold (flat (nextstate (_p g) g)).
    rewrite <- (map_nth_seq tofloat24 (flat (nextstate (_p g) g)) 0).
    unfold flat at 3. rewrite (shape_flat_length W) by assumption.
    apply map_ext_in; intros j Hj. apply in_seq in Hj.
    rewrite lane_i32; [reflexivity |].
    apply nth_Forall; [apply (shape_flat_lanes W); assumption |].
    unfold flat; rewrite (shape_flat_length W) by assumption. lia.
  - revert Ep Epos.
    destruct (nextstate (_p g) g) as [x c p q]; cbn [_x _c _p _pos].
    intros -> ->. f_equal. lia.
Qed.

Lemma simd_advance_succ_r (k : nat) (g : engine) :
  simd_advance (S k) g = simd_advance k (nextstate (_p g) g).
Proof.
  unfold simd_advance.
  exact (Nat.iter_succ_r k _ (fun h => nextstate (_p h) h) g).
Qed.

Lemma simd_whole_batches (k : nat) (g : engine) :
  wf W g -> _pos g = Z.of_nat W * 24 ->
  draws (Z.of_nat W) (24 * W * k) g
  = (concat (map (fun j => map tofloat24 (flat (simd_advance (S j) g)))
                 (seq 0 k)),
     simd_advance k g).
Proof.
  revert g; induction k as [| k IH]; intros g Hg Hpos.
  - rewrite Nat.mul_0_r. reflexivity.
  - replace (24 * W * S k)%nat with (24 * W + 24 * W * k)%nat by lia.
    rewrite simd_draws_app, simd_one_batch by assumption. cbn [fst snd].
    assert (Hn : wf W (nextstate (_p g) g))
      by (apply simd_nextstate_wf; assumption).
    assert (Hq : _pos (nextstate (_p g) g) = Z.of_nat W * 24)
      by (destruct (simd_nextstate_fields (_p g) g) as (_ & _ & _ & E);
          rewrite E; assumption).
    rewrite (IH _ Hn Hq). cbn [fst snd seq map concat].
    rewrite <- seq_shift, map_map.
    rewrite <- simd_advance_succ_r.
    replace (map (fun j => map tofloat24
                    (flat (simd_advance (S j) (nextstate (_p g) g))))
                 (seq 0 k))
      with (map (fun j => map tofloat24
                    (flat (simd_advance (S (S j)) g))) (seq 0 k))
      by (apply map_ext; intros j; rewrite <- simd_advance_succ_r;
          reflexivity).
    reflexivity.
Qed.

End SIMDBatches.

(** ** All lanes on the same stream *)

Section SameSeed.
Import Batches.

Variable W : nat.

Lemma vswb_repeat (a b c : Z) :
  SIMD.vswb (repeat a W) (repeat b W) (repeat c W)
  = (repeat (fst (swb a b c)) W, repeat (snd (swb a b c)) W).
Proof.
  induction W as [| n IH]; [reflexivity |].
  cbn [repeat SIMD.vswb]. rewrite IH.
  destruct (swb a b c) as [v k]. reflexivity.
Qed.

Lemma store_map {A B} (f : A -> B) (i : nat) (v : A) (l : list A) :
  store i (f v) (map f l) = map f (store i v l).
Proof.
  revert i; induction l as [| h t IH]; intros [| i]; cbn [store map];
    try reflexivity.
  rewrite IH; reflexivity.
Qed.

Lemma nth_map_repeat (x : list Z) (i : nat) :
  (i < length x)%nat ->
  nth i (map (fun v => repeat v W) x) [] = repeat (nth i x 0) W.
Proof.
  intros Hi.
  rewrite (nth_indep _ [] (repeat 0 W)) by (rewrite length_map; assumption).
  apply (map_nth (fun v => repeat v W)).
Qed.

Lemma sub_step_replicate (i : nat) (x : list Z) (c : Z) :
  (i < 24)%nat -> length x = 24%nat ->
  SIMD.sub_step i (map (fun v => repeat v W) x, repeat c W)
  = (map (fun v => repeat v W) (fst (Scalar.sub_step i (x, c))),
     repeat (snd (Scalar.sub_step i (x, c))) W).
Proof.
  intros Hi Hlen. unfold SIMD.sub_step, Scalar.sub_step.
  assert (Hj : ((i + 14) mod 24 < length x)%nat)
    by (rewrite Hlen; apply Nat.mod_upper_bound; lia).
  rewrite !nth_map_repeat by lia.
  rewrite vswb_repeat.
  destruct (swb (nth i x 0) (nth ((i + 14) mod 24)%nat x 0) c) as [v k].
  cbn [fst snd]. f_equal.
  exact (store_map (fun v => repeat v W) i v x).
Qed.

Lemma sub_step_length (i : nat) (s : list Z * Z) :
  length (fst (Scalar.sub_step i s)) = length (fst s).
Proof.
  destruct s as [x c]; unfold Scalar.sub_step.
  destruct (swb _ _ c) as [v k]; cbn [fst]. apply store_length.
Qed.

Lemma fold_sub_step_replicate (l : list nat) (x : list Z) (c : Z) :
  Forall (fun i => (i < 24)%nat) l -> length x = 24%nat ->
  fold_left (fun s i => SIMD.sub_step i s) l
    (map (fun v => repeat v W) x, repeat c W)
  = (map (fun v => repeat v W)
         (fst (fold_left (fun s i => Scalar.sub_step i s) l (x, c))),
     repeat (snd (fold_left (fun s i => Scalar.sub_step i s) l (x, c))) W) /\
  length (fst (fold_left (fun s i => Scalar.sub_step i s) l (x, c))) = 24%nat.
Proof.
  intros Hl; revert x c; induction Hl as [| i l Hi Hl IH]; intros x c Hlen;
    cbn [fold_left].
  - auto.
  - rewrite sub_step_replicate by assumption.
    pose proof (sub_step_length i (x, c)) as L. cbn [fst] in L.
    destruct (Scalar.sub_step i (x, c)) as [x' c']; cbn [fst snd] in *.
    apply IH; lia.
Qed.

Lemma iter_replicate (n : nat) (x : list Z) (c : Z) :
  length x = 24%nat ->
  Nat.iter n SIMD.next_one (map (fun v => repeat v W) x, repeat c W)
  = (map (fun v => repeat v W) (fst (Nat.iter n Scalar.next_one (x, c))),
     repeat (snd (Nat.iter n Scalar.next_one (x, c))) W) /\
  length (fst (Nat.iter n Scalar.next_one (x, c))) = 24%nat.
Proof.
  intros Hlen; induction n as [| n [IH L]].
  - cbn; auto.
  - rewrite !Nat.iter_succ.
    rewrite IH.
    destruct (Nat.iter n Scalar.next_one (x, c)) as [x' c'];
      cbn [fst snd] in *.
    unfold SIMD.next_one, Scalar.next_one.
    apply fold_sub_step_replicate; [| assumption].
    apply Forall_forall; intros i Hi; apply in_seq in Hi; lia.
Qed.

(** Advancing the replicated engine is replicating the advanced one. *)
Lemma nextstate_replicate (n : Z) (s : Scalar.ranluxI_scalar) :
  length (Scalar._x s) = 24%nat ->
  SIMD.nextstate n (replicate W s) = replicate W (Scalar.nextstate n s).
Proof.
  intros Hlen. unfold SIMD.nextstate, Scalar.nextstate, replicate.
  cbn [SIMD._x SIMD._c SIMD._p SIMD._pos].
  destruct (iter_replicate (Z.to_nat n) (Scalar._x s) (Scalar._c s) Hlen)
    as [E _].
  rewrite E.
  destruct (Nat.iter (Z.to_nat n) Scalar.next_one (Scalar._x s, Scalar._c s))
    as [x c].
  reflexivity.
Qed.

Lemma replicate_wf (s : Scalar.ranluxI_scalar) :
  ScalarInv.wf s -> SIMDInv.wf W (replicate W s).
Proof.
  intros ((Hlen & Hall) & Hc & Hpos).
  unfold SIMDInv.wf, SIMDInv.shape, replicate;
    cbn [SIMD._x SIMD._c SIMD._pos].
  rewrite length_map, repeat_length.
  split; [split; [assumption |] | split; [reflexivity | nia]].
  apply Forall_forall; intros v Hv. apply in_map_iff in Hv.
  destruct Hv as (z & <- & Hz).
  split; [apply repeat_length |].
  apply Forall_forall; intros y Hy. apply repeat_spec in Hy; subst y.
  rewrite Forall_forall in Hall; auto.
Qed.

End SameSeed.

Section SameSeedDraws.
Import Batches.

Variable W : nat.
Hypothesis W_pos : (0 < W)%nat.

Lemma map_const_seq {B} (f : nat -> B) (v : B) (a n : nat) :
  (forall j, (a <= j < a + n)%nat -> f j = v) ->
  map f (seq a n) = repeat v n.
Proof.
  revert a; induction n as [| n IH]; intros a H; [reflexivity |].
  cbn [seq map repeat]. rewrite H by lia. f_equal.
  apply IH; intros j Hj; apply H; lia.
Qed.

Lemma nth_repeat_lt (v : Z) (n j : nat) :
  (j < n)%nat -> nth j (repeat v n) 0 = v.
Proof.
  revert j; induction n as [| n IH]; intros [| j] Hj; cbn; try lia; auto.
  apply IH; lia.
Qed.

(** With the cursor inside the batch, [W] draws of the replicated engine
    return the one scalar draw [W] times. *)
Lemma replicate_draw_in_batch (s : Scalar.ranluxI_scalar) :
  ScalarInv.wf s -> Scalar._pos s < 24 ->
  SIMDInv.draws (Z.of_nat W) W (replicate W s)
  = (repeat (fst (Scalar.operator_call s)) W,
     replicate W (snd (Scalar.operator_call s))).
Proof.
  intros Hs Hlt.
  pose proof (replicate_wf W s Hs) as Hg.
  destruct Hs as ((Hlen & Hall) & Hc & Hpos).
  rewrite (draws_in_batch W W_pos)
    by (unfold replicate; cbn [SIMD._pos]; nia).
  unfold Scalar.operator_call.
  destruct (Z.leb_spec 24 (Scalar._pos s)) as [Hbad | _]; [lia |].
  cbn [fst snd Scalar._x Scalar._c Scalar._p Scalar._pos].
  f_equal.
  - apply map_const_seq; intros j Hj.
    do 2 f_equal.
    rewrite (flat_word W) by
      (try apply Hg; try assumption;
       unfold replicate; cbn [SIMD._pos]; nia).
    unfold replicate at 1 2 3; cbn [SIMD._pos SIMD._x]. unfold SIMDInv.word.
    replace (Z.to_nat (Z.of_nat W * Scalar._pos s) + j)%nat
      with (j + Z.to_nat (Scalar._pos s) * W)%nat by nia.
    rewrite Nat.div_add, Nat.Div0.mod_add by lia.
    rewrite Nat.div_small, Nat.mod_small by lia. cbn [Nat.add].
    rewrite nth_map_repeat by lia.
    apply nth_repeat_lt; lia.
  - unfold replicate;
      cbn [SIMD._x SIMD._c SIMD._p SIMD._pos
           Scalar._x Scalar._c Scalar._p Scalar._pos].
    f_equal. lia.
Qed.

(** The same for any position of the cursor: past the batch both engines
    refill first. *)
Lemma replicate_draw (s : Scalar.ranluxI_scalar) :
  ScalarInv.wf s ->
  SIMDInv.draws (Z.of_nat W) W (replicate W s)
  = (repeat (fst (Scalar.operator_call s)) W,
     replicate W (snd (Scalar.operator_call s))).
Proof.
  intros Hs.
  destruct (Z.lt_ge_cases (Scalar._pos s) 24) as [Hlt | Hge].
  - apply replicate_draw_in_batch; assumption.
  - rewrite (simd_draws_refill W W_pos)
      by (try lia; unfold replicate; cbn [SIMD._pos]; nia).
    rewrite scalar_operator_call_refill by assumption.
    set (r := Scalar.nextstate (Scalar._p s)
                (Scalar.mk (Scalar._x s) (Scalar._c s) (Scalar._p s) 0)).
    assert (Hr : ScalarInv.wf r).
    { subst r. apply nextstate_wf.
      destruct Hs as (H1 & H2 & H3); unfold ScalarInv.wf; cbn.
      split; [| split]; auto; lia. }
    assert (Hq : Scalar._pos r < 24).
    { subst r.
      destruct (nextstate_fields (Scalar._p s)
                  (Scalar.mk (Scalar._x s) (Scalar._c s) (Scalar._p s) 0))
        as (_ & _ & _ & E). rewrite E; cbn; lia. }
    rewrite <- (replicate_draw_in_batch r Hr Hq).
    f_equal. subst r.
    rewrite <- (nextstate_replicate W) by (cbn; apply Hs).
    unfold replicate;
      cbn [SIMD._x SIMD._c SIMD._p SIMD._pos
           Scalar._x Scalar._c Scalar._p Scalar._pos].
    rewrite Z.mul_0_r. reflexivity.
Qed.

Lemma scalar_draws_wf (n : nat) (s : Scalar.ranluxI_scalar) :
  ScalarInv.wf s -> ScalarInv.wf (snd (ScalarInv.draws n s)).
Proof.
  revert s; induction n as [| n IH]; intros s Hs; cbn [ScalarInv.draws].
  - exact Hs.
  - pose proof (operator_call_wf s Hs) as H1.
    destruct (Scalar.operator_call s) as [v s1]; cbn [snd] in H1.
    specialize (IH s1 H1).
    destruct (ScalarInv.draws n s1) as [vs s2]. exact IH.
Qed.

Lemma replicate_draws (n : nat) (s : Scalar.ranluxI_scalar) :
  ScalarInv.wf s ->
  SIMDInv.draws (Z.of_nat W) (W * n) (replicate W s)
  = (flat_map (fun v => repeat v W) (fst (ScalarInv.draws n s)),
     replicate W (snd (ScalarInv.draws n s))).
Proof.
  revert s; induction n as [| n IH]; intros s Hs.
  - rewrite Nat.mul_0_r. reflexivity.
  - replace (W * S n)%nat with (W + W * n)%nat by lia.
    rewrite (simd_draws_app W), replicate_draw by assumption.
    cbn [fst snd ScalarInv.draws].
    pose proof (operator_call_wf s Hs) as H1.
    destruct (Scalar.operator_call s) as [v s1]; cbn [fst snd] in *.
    rewrite (IH s1 H1).
    destruct (ScalarInv.draws n s1) as [vs s2]. reflexivity.
Qed.

End SameSeedDraws.

(** X4: starting with the cursor at the end of a batch, [24 W k] draws of
    the 4-wide (8-wide) engine advance the state exactly [k] times and
    deliver every value of each advanced state once, in the memory order of
    the array of vectors; the engine is left as the [k]-th advanced state. *)
Theorem simd_draws_deliver_whole_batches :
  (forall (k : nat) (g : SIMD.engine),
     SIMDInv.wf 4 g -> SIMD._pos g = 4 * 24 ->
     SIMDInv.draws SSE.width (24 * 4 * k) g
     = (concat (map (fun j => map tofloat24
                                (SIMD.flat (Batches.simd_advance (S j) g)))
                    (seq 0 k)),
        Batches.simd_advance k g)) /\
  (forall (k : nat) (g : SIMD.engine),
     SIMDInv.wf 8 g -> SIMD._pos g = 8 * 24 ->
     SIMDInv.draws AVX.width (24 * 8 * k) g
     = (concat (map (fun j => map tofloat24
                                (SIMD.flat (Batches.simd_advance (S j) g)))
                    (seq 0 k)),
        Batches.simd_advance k g)).
Proof.
  split; intros k g Hg Hpos.
  - apply (simd_whole_batches 4 ltac:(lia) k g Hg). exact Hpos.
  - apply (simd_whole_batches 8 ltac:(lia) k g Hg). exact Hpos.
Qed.

Lemma simd_draws_deliver_whole_batches_witness :
  let g4 := SIMDInv.at_cursor 96 (SIMDInv.sample 4) in
  let g8 := SIMDInv.at_cursor 192 (SIMDInv.sample 8) in
  (SIMDInv.wf 4 g4 /\ SIMD._pos g4 = 4 * 24 /\
   snd (SIMDInv.draws SSE.width (24 * 4 * 2) g4) = Batches.simd_advance 2 g4) /\
  (SIMDInv.wf 8 g8 /\ SIMD._pos g8 = 8 * 24 /\
   snd (SIMDInv.draws AVX.width (24 * 8 * 2) g8) = Batches.simd_advance 2 g8).
Proof.
  intros g4 g8.
  assert (H4 : SIMDInv.wf 4 g4)
    by (apply at_cursor_wf; [exact sse_sample_wf | lia]).
  assert (H8 : SIMDInv.wf 8 g8)
    by (apply at_cursor_wf; [exact avx_sample_wf | lia]).
  split.
  - split; [exact H4 |]. split; [reflexivity |].
    rewrite (proj1 simd_draws_deliver_whole_batches 2%nat g4 H4 eq_refl).
    reflexivity.
  - split; [exact H8 |]. split; [reflexivity |].
    rewrite (proj2 simd_draws_deliver_whole_batches 2%nat g8 H8 eq_refl).
    reflexivity.
Defined.

(** X5: a 4-wide (8-wide) engine all of whose lanes hold the state of a
    scalar engine duplicates the scalar engine: after skipping [m] states on
    both, [W n] draws of the SIMD engine are the [n] draws of the scalar
    engine with every value delivered [W] times in a row, and the SIMD
    engine is again the replicated scalar engine. *)
Theorem same_seed_lanes_duplicate_scalar :
  (forall (s : Scalar.ranluxI_scalar) (m : Z) (n : nat),
     ScalarInv.wf s ->
     SIMDInv.draws SSE.width (4 * n)
       (SIMD.nextstate m (Batches.replicate 4 s))
     = (flat_map (fun v => repeat v 4)
          (fst (ScalarInv.draws n (Scalar.nextstate m s))),
        Batches.replicate 4
          (snd (ScalarInv.draws n (Scalar.nextstate m s))))) /\
  (forall (s : Scalar.ranluxI_scalar) (m : Z) (n : nat),
     ScalarInv.wf s ->
     SIMDInv.draws AVX.width (8 * n)
       (SIMD.nextstate m (Batches.replicate 8 s))
     = (flat_map (fun v => repeat v 8)
          (fst (ScalarInv.draws n (Scalar.nextstate m s))),
        Batches.replicate 8
          (snd (ScalarInv.draws n (Scalar.nextstate m s))))).
Proof.
  split; intros s m n Hs.
  - rewrite (nextstate_replicate 4) by apply Hs.
    apply (replicate_draws 4 ltac:(lia)). apply nextstate_wf; assumption.
  - rewrite (nextstate_replicate 8) by apply Hs.
    apply (replicate_draws 8 ltac:(lia)). apply nextstate_wf; assumption.
Qed.

Lemma same_seed_lanes_duplicate_scalar_witness :
  ScalarInv.wf ScalarInv.sample /\
  fst (SIMDInv.draws SSE.width (4 * 30)
         (SIMD.nextstate 2 (Batches.replicate 4 ScalarInv.sample)))
  = flat_map (fun v => repeat v 4)
      (fst (ScalarInv.draws 30 (Scalar.nextstate 2 ScalarInv.sample))) /\
  fst (SIMDInv.draws AVX.width (8 * 30)
         (SIMD.nextstate 2 (Batches.replicate 8 ScalarInv.sample)))
  = flat_map (fun v => repeat v 8)
      (fst (ScalarInv.draws 30 (Scalar.nextstate 2 ScalarInv.sample))).
Proof.
  split; [exact sample_wf |]. split.
  - rewrite (proj1 same_seed_lanes_duplicate_scalar
               ScalarInv.sample 2 30%nat sample_wf).
    reflexivity.
  - rewrite (proj2 same_seed_lanes_duplicate_scalar
               ScalarInv.sample 2 30%nat sample_wf).
    reflexivity.
Defined.

(** ** The self-consistency tests *)

Section CompareLoop.
Import Compare.

Lemma first_diff_none (n j : nat) (y y2 : list Z) :
  first_diff n j y y2 = None <->
  forall i, (j <= i < j + n)%nat -> nth i y 0 = nth i y2 0.
Proof.
  revert j; induction n as [| n IH]; intros j; cbn [first_diff].
  - split; [intros _ i Hi; lia | reflexivity].
  - destruct (Z.eqb_spec (nth j y 0) (nth j y2 0)) as [E | E].
    + rewrite IH. split; intros H i Hi.
      * destruct (Nat.eq_dec i j) as [-> | Hne]; [exact E | apply H; lia].
      * apply H; lia.
    + split; [discriminate |]. intros H. exfalso; apply E, H; lia.
Qed.

Lemma first_diff_some (n j m : nat) (y y2 : list Z) :
  first_diff n j y y2 = Some m ->
  (j <= m < j + n)%nat /\ nth m y 0 <> nth m y2 0 /\
  forall i, (j <= i < m)%nat -> nth i y 0 = nth i y2 0.
Proof.
  revert j; induction n as [| n IH]; intros j; cbn [first_diff];
    [discriminate |].
  destruct (Z.eqb_spec (nth j y 0) (nth j y2 0)) as [E | E].
  - intros H. destruct (IH _ H) as (B & D & L).
    split; [lia |]. split; [exact D |].
    intros i Hi. destruct (Nat.eq_dec i j) as [-> | Hne];
      [exact E | apply L; lia].
  - intros [= <-]. split; [lia |]. split; [exact E |]. intros i Hi; lia.
Qed.

Variables S0 S1 : Type.
Variable step0 : S0 -> S0.
Variable step1 : S1 -> S1.
Variable check : Z -> S0 -> S1 -> option failure.
Variable bound : Z.
Hypothesis bound_int : bound <= 2 ^ 30.

(** The loop ends; it passes when every step up to [bound - 1] checks, and
    otherwise fails with the report of the first step that does not. *)
Lemma compare_loop_spec (fuel : nat) (N i0 : Z) (a : S0) (b : S1)
      (shown : list Z) :
  1 <= N < bound -> (Z.to_nat (bound - N) <= fuel)%nat ->
  exists shown' v,
    compare_loop S0 S1 step0 step1 check bound fuel N i0 a b shown
    = Some (shown', v) /\
    ((v = Passed bound /\
      forall i : nat, N + Z.of_nat i < bound ->
        check (N + Z.of_nat i) (Nat.iter (S i) step0 a)
              (Nat.iter (S i) step1 b) = None) \/
     (exists (i : nat) (f : failure),
        N + Z.of_nat i < bound /\ v = Failed f /\
        check (N + Z.of_nat i) (Nat.iter (S i) step0 a)
              (Nat.iter (S i) step1 b) = Some f /\
        forall i' : nat, (i' < i)%nat ->
          check (N + Z.of_nat i') (Nat.iter (S i') step0 a)
                (Nat.iter (S i') step1 b) = None)).
Proof.
  revert N i0 a b shown; induction fuel as [| fuel IH];
    intros N i0 a b shown HN Hfuel; [lia |].
  cbn [compare_loop].
  destruct (check N (step0 a) (step1 b)) as [f |] eqn:Ec.
  - exists shown, (Failed f). split; [reflexivity |]. right.
    exists 0%nat, f. rewrite Z.add_0_r.
    split; [lia |]. split; [reflexivity |]. split; [exact Ec |].
    intros i' Hi'; lia.
  - set (st := if i0 =? N then (Word.i32 (Z.shiftl i0 1), shown ++ [N])
               else (i0, shown)).
    destruct st as [i1 shown1].
    rewrite i32_small by lia.
    destruct (Z.ltb_spec (N + 1) bound) as [Hlt | Hge].
    + destruct (IH (N + 1) i1 (step0 a) (step1 b) shown1
                  ltac:(lia) ltac:(lia)) as (shown' & v & E & H).
      exists shown', v. split; [exact E |].
      destruct H as [[Ev Hall] | (i & f & Hi & Ev & Ef & Hbefore)].
      * left. split; [exact Ev |]. intros [| i] Hi.
        -- rewrite Z.add_0_r. exact Ec.
        -- rewrite !(Nat.iter_succ_r (S i)).
           replace (N + Z.of_nat (S i)) with (N + 1 + Z.of_nat i) by lia.
           apply Hall; lia.
      * right. exists (S i), f.
        split; [lia |]. split; [exact Ev |]. split.
        -- rewrite !(Nat.iter_succ_r (S i)).
           replace (N + Z.of_nat (S i)) with (N + 1 + Z.of_nat i) by lia.
           exact Ef.
        -- intros [| i'] Hi'.
           ++ rewrite Z.add_0_r. exact Ec.
           ++ rewrite !(Nat.iter_succ_r (S i')).
              replace (N + Z.of_nat (S i')) with (N + 1 + Z.of_nat i') by lia.
              apply Hbefore; lia.
    + exists shown1, (Passed (N + 1)). split; [reflexivity |]. left.
      split; [f_equal; lia |].
      intros i Hi. assert (i = 0%nat) by lia. subst i.
      rewrite Z.add_0_r. exact Ec.
Qed.

End CompareLoop.

Section CompareTests.
Import Compare.

Variable construct : Z -> Z -> Scalar.ranluxI_scalar.
Variable ranluxpp : Type.
Variable ranluxpp_make : Z -> Z -> ranluxpp.
Variable ranluxpp_getstate : ranluxpp -> list Z.
Variable ranluxpp_setstate : ranluxpp -> list Z -> ranluxpp.
Variable ranluxpp_nextstate : ranluxpp -> ranluxpp.
Variable getlcgstate : list Z -> Z -> list Z.
Variable getranluxseq : list Z -> list Z * Z.

Local Abbreviation chk1 := (check_1 ranluxpp ranluxpp_getstate getranluxseq).
Local Abbreviation chk0 := (check_0 ranluxpp ranluxpp_getstate getlcgstate).
Local Abbreviation s0 := (at0 construct).
Local Abbreviation s1 :=
  (at1 construct ranluxpp ranluxpp_make ranluxpp_setstate
       ranluxpp_nextstate getlcgstate).
Local Abbreviation agree1 :=
  (agree_1 construct ranluxpp ranluxpp_make ranluxpp_getstate
           ranluxpp_setstate ranluxpp_nextstate getlcgstate getranluxseq).
Local Abbreviation rep1 :=
  (report_1 construct ranluxpp ranluxpp_make ranluxpp_getstate
            ranluxpp_setstate ranluxpp_nextstate getlcgstate getranluxseq).
Local Abbreviation agree0 :=
  (agree_0 construct ranluxpp ranluxpp_make ranluxpp_getstate
           ranluxpp_setstate ranluxpp_nextstate getlcgstate).

Lemma check_1_none (N : Z) (n : nat) :
  chk1 N (s0 n) (s1 n) = None <-> agree1 n.
Proof.
  unfold check_1, agree_1.
  destruct (Scalar.getstate (s0 n)) as [y k].
  destruct (getranluxseq (ranluxpp_getstate (s1 n))) as [y2 k2].
  cbn [fst snd].
  destruct (Z.eqb_spec k k2) as [E | E]; cbn [negb].
  - destruct (first_diff 24 0 y y2) as [j |] eqn:Ed.
    + split; [discriminate |]. intros [_ H].
      destruct (first_diff_some _ _ _ _ _ Ed) as (B & D & _).
      exfalso; apply D, H; lia.
    + split; [| reflexivity]. intros _. split; [exact E |].
      intros j Hj. apply (proj1 (first_diff_none 24 0 y y2) Ed); lia.
  - split; [discriminate |]. intros [H _]; contradiction.
Qed.

Lemma check_1_some (n : nat) (f : failure) :
  chk1 (Z.of_nat n) (s0 n) (s1 n) = Some f -> rep1 f n.
Proof.
  unfold check_1, report_1.
  destruct (Scalar.getstate (s0 n)) as [y k].
  destruct (getranluxseq (ranluxpp_getstate (s1 n))) as [y2 k2].
  cbn [fst snd].
  destruct (Z.eqb_spec k k2) as [E | E]; cbn [negb].
  - destruct (first_diff 24 0 y y2) as [j |] eqn:Ed; [| discriminate].
    intros [= <-].
    destruct (first_diff_some _ _ _ _ _ Ed) as (B & D & L).
    repeat split; auto; try lia. intros i Hi; apply L; lia.
  - intros [= <-]. repeat split; auto.
Qed.

Lemma check_0_none (N : Z) (n : nat) :
  chk0 N (s0 n) (s1 n) = None <-> agree0 n.
Proof.
  unfold check_0, agree_0.
  destruct (Scalar.getstate (s0 n)) as [y k]. cbn [fst snd].
  destruct (first_diff 9 0 (getlcgstate y k) (ranluxpp_getstate (s1 n)))
    as [j |] eqn:Ed.
  - split; [discriminate |]. intros H.
    destruct (first_diff_some _ _ _ _ _ Ed) as (B & D & _).
    exfalso; apply D, H; lia.
  - split; [| reflexivity]. intros _ j Hj.
    apply (proj1 (first_diff_none 9 0 _ _) Ed); lia.
Qed.

Lemma check_0_some (N : Z) (n : nat) (f : failure) :
  chk0 N (s0 n) (s1 n) = Some f -> f = WordMismatch N.
Proof.
  unfold check_0.
  destruct (Scalar.getstate (s0 n)) as [y k].
  destruct (first_diff 9 0 _ _); [| discriminate].
  intros [= <-]; reflexivity.
Qed.

Lemma steps_int : steps <= 2 ^ 30.
Proof. unfold steps; lia. Qed.

Lemma steps_first : 1 <= 1 < steps.
Proof. unfold steps; lia. Qed.

Lemma at0_eq (n : nat) :
  s0 n = Nat.iter n (Scalar.nextstate stride) (start0 construct).
Proof. reflexivity. Qed.

Lemma at1_eq (n : nat) :
  s1 n
  = Nat.iter n ranluxpp_nextstate
      (start1 construct ranluxpp ranluxpp_make ranluxpp_setstate getlcgstate).
Proof. reflexivity. Qed.

Lemma fuel_enough (B : Z) (fuel : nat) :
  (Z.to_nat B <= fuel)%nat -> (Z.to_nat (B - 1) <= fuel)%nat.
Proof. lia. Qed.

(** X6: [compare_ranlux_1] ends (100000000 iterations of fuel are
    enough).  It announces success (with the count
    100000000) exactly when, after each of the steps 1 to 99999999, the
    carry and the 24 numbers recovered from the LCG state equal those of the
    scalar engine; otherwise it stops at the first step where they differ
    and reports that step, the carry being compared before the numbers and
    the numbers in index order. *)
Theorem compare_ranlux_1_verdict (extra : nat) :
  exists shown v,
    compare_ranlux_1 construct ranluxpp ranluxpp_make ranluxpp_getstate
      ranluxpp_setstate ranluxpp_nextstate getlcgstate getranluxseq
      (Z.to_nat steps + extra)
    = Some (shown, v) /\
    (v = Passed steps <->
     forall n, (1 <= n)%nat -> Z.of_nat n < steps -> agree1 n) /\
    (forall f, v = Failed f ->
       exists n, (1 <= n)%nat /\ Z.of_nat n < steps /\
         step_of f = Z.of_nat n /\ rep1 f n /\ ~ agree1 n /\
         forall m, (1 <= m < n)%nat -> agree1 m) /\
    (v = Passed steps \/ exists f, v = Failed f).
Proof.
  pose proof (Nat.le_add_r (Z.to_nat steps) extra) as Hfuel.
  set (fuel := (Z.to_nat steps + extra)%nat) in *.
  unfold compare_ranlux_1.
  destruct (compare_loop_spec Scalar.ranluxI_scalar ranluxpp
              (Scalar.nextstate stride) ranluxpp_nextstate chk1 steps
              steps_int fuel 1 1
              (start0 construct)
              (start1 construct ranluxpp ranluxpp_make ranluxpp_setstate
                      getlcgstate) []
              steps_first (fuel_enough steps fuel Hfuel))
    as (shown & v & E & H).
  clear Hfuel. exists shown, v. split; [exact E |].
  destruct H as [[Ev Hall] | (i & f & Hi & Ev & Ef & Hbefore)].
  - split; [| split].
    + split; [| intros _; exact Ev]. intros _ n Hn Hlt.
      destruct n as [| i]; [lia |].
      apply (check_1_none (1 + Z.of_nat i) (S i)).
      rewrite at0_eq, at1_eq. apply Hall; lia.
    + intros f Hf. rewrite Ev in Hf; discriminate Hf.
    + left; exact Ev.
  - assert (Hrep : rep1 f (S i)).
    { apply check_1_some.
      replace (Z.of_nat (S i)) with (1 + Z.of_nat i) by lia.
      rewrite at0_eq, at1_eq. exact Ef. }
    assert (Hno : ~ agree1 (S i)).
    { intros Ha. apply (check_1_none (1 + Z.of_nat i) (S i)) in Ha.
      rewrite at0_eq, at1_eq in Ha. rewrite Ef in Ha. discriminate Ha. }
    split; [| split].
    + split; [intros Hv; rewrite Ev in Hv; discriminate Hv |].
      intros Ha. exfalso. apply Hno, Ha; lia.
    + intros f' Hf. rewrite Ev in Hf. injection Hf as <-.
      exists (S i). split; [lia |]. split; [lia |]. split.
      * unfold report_1 in Hrep. destruct f; cbn [step_of];
          [apply Hrep | apply Hrep | contradiction].
      * split; [exact Hrep |]. split; [exact Hno |].
        intros m Hm. destruct m as [| i']; [lia |].
        apply (check_1_none (1 + Z.of_nat i') (S i')).
        rewrite at0_eq, at1_eq. apply Hbefore; lia.
    + right; exists f; exact Ev.
Qed.

(** X7: [compare_ranlux_0] ends (100000000 iterations of fuel are
    enough).  It announces success exactly when, after
    each of the steps 1 to 99999999, the nine words converted from the scalar
    state equal the nine words of the LCG state; otherwise it stops at the
    first step where a word differs and reports that step. *)
Theorem compare_ranlux_0_verdict (extra : nat) :
  exists shown v,
    compare_ranlux_0 construct ranluxpp ranluxpp_make ranluxpp_getstate
      ranluxpp_setstate ranluxpp_nextstate getlcgstate
      (Z.to_nat steps + extra)
    = Some (shown, v) /\
    (v = Passed steps <->
     forall n, (1 <= n)%nat -> Z.of_nat n < steps -> agree0 n) /\
    (forall f, v = Failed f ->
       exists n, (1 <= n)%nat /\ Z.of_nat n < steps /\
         f = WordMismatch (Z.of_nat n) /\ ~ agree0 n /\
         forall m, (1 <= m < n)%nat -> agree0 m) /\
    (v = Passed steps \/ exists f, v = Failed f).
Proof.
  pose proof (Nat.le_add_r (Z.to_nat steps) extra) as Hfuel.
  set (fuel := (Z.to_nat steps + extra)%nat) in *.
  unfold compare_ranlux_0.
  destruct (compare_loop_spec Scalar.ranluxI_scalar ranluxpp
              (Scalar.nextstate stride) ranluxpp_nextstate chk0 steps
              steps_int fuel 1 1
              (start0 construct)
              (start1 construct ranluxpp ranluxpp_make ranluxpp_setstate
                      getlcgstate) []
              steps_first (fuel_enough steps fuel Hfuel))
    as (shown & v & E & H).
  clear Hfuel. exists shown, v. split; [exact E |].
  destruct H as [[Ev Hall] | (i & f & Hi & Ev & Ef & Hbefore)].
  - split; [| split].
    + split; [| intros _; exact Ev]. intros _ n Hn Hlt.
      destruct n as [| i]; [lia |].
      apply (check_0_none (1 + Z.of_nat i) (S i)).
      rewrite at0_eq, at1_eq. apply Hall; lia.
    + intros f Hf. rewrite Ev in Hf; discriminate Hf.
    + left; exact Ev.
  - assert (Hno : ~ agree0 (S i)).
    { intros Ha. apply (check_0_none (1 + Z.of_nat i) (S i)) in Ha.
      rewrite at0_eq, at1_eq in Ha. rewrite Ef in Ha. discriminate Ha. }
    split; [| split].
    + split; [intros Hv; rewrite Ev in Hv; discriminate Hv |].
      intros Ha. exfalso. apply Hno, Ha; lia.
    + intros f' Hf. rewrite Ev in Hf. injection Hf as <-.
      exists (S i). split; [lia |]. split; [lia |]. split.
      * replace (Z.of_nat (S i)) with (1 + Z.of_nat i) by lia.
        apply (check_0_some (1 + Z.of_nat i) (S i)).
        rewrite at0_eq, at1_eq. exact Ef.
      * split; [exact Hno |].
        intros m Hm. destruct m as [| i']; [lia |].
        apply (check_0_none (1 + Z.of_nat i') (S i')).
        rewrite at0_eq, at1_eq. apply Hbefore; lia.
    + right; exists f; exact Ev.
Qed.

End CompareTests.

(** ** Streaming the export *)

Section OutputFacts.
Import Output Batches.

Lemma export_is_advance (g : Scalar.ranluxI_scalar) :
  Scalar.nextstate_and_get_uint32_vector g
  = (advance 1 g, Scalar.export_loop 6 0 (Scalar._x (advance 1 g))).
Proof. reflexivity. Qed.

Lemma export_stream_succ_l (g : Scalar.ranluxI_scalar) (m : nat) :
  export_stream g (S m)
  = Scalar.export_loop 6 0 (Scalar._x (advance 1 g))
      ++ export_stream (advance 1 g) m.
Proof.
  unfold export_stream. cbn [seq map concat]. f_equal.
  rewrite <- seq_shift, map_map. f_equal.
  apply map_ext; intros i.
  change (advance 1 g) with (Scalar.nextstate (Scalar._p g) g).
  rewrite <- advance_succ_r. reflexivity.
Qed.

Lemma export_stream_length (g : Scalar.ranluxI_scalar) (m : nat) :
  length (export_stream g m) = (18 * m)%nat.
Proof.
  induction m as [| m IH] in g |- *; [reflexivity |].
  rewrite export_stream_succ_l, length_app, export_loop_length, IH. lia.
Qed.

Lemma advance_add (a b : nat) (g : Scalar.ranluxI_scalar) :
  advance (a + b) g = advance b (advance a g).
Proof.
  revert g; induction a as [| a IH]; intros g; [reflexivity |].
  cbn [Nat.add]. rewrite advance_succ_r, IH, <- advance_succ_r. reflexivity.
Qed.

Lemma export_stream_add (g : Scalar.ranluxI_scalar) (a b : nat) :
  export_stream g (a + b)
  = export_stream g a ++ export_stream (advance a g) b.
Proof.
  revert g; induction a as [| a IH]; intros g; [reflexivity |].
  cbn [Nat.add]. rewrite !export_stream_succ_l, IH, <- app_assoc.
  do 2 f_equal. f_equal.
  change (advance 1 g) with (Scalar.nextstate (Scalar._p g) g).
  rewrite <- advance_succ_r. reflexivity.
Qed.

(** Filling the buffer with [n] exports advances [n] times and stores the
    18 words of each export, one after the other. *)
Lemma fill_spec (n : nat) (g : Scalar.ranluxI_scalar) :
  fill n g = (advance n g, export_stream g n).
Proof.
  revert g; induction n as [| n IH]; intros g; cbn [fill]; [reflexivity |].
  rewrite export_is_advance, IH.
  rewrite firstn_all2 by (rewrite export_loop_length; unfold word_size; lia).
  rewrite export_stream_succ_l. f_equal.
  change (advance 1 g) with (Scalar.nextstate (Scalar._p g) g).
  rewrite <- advance_succ_r. reflexivity.
Qed.

End OutputFacts.

Section OutputLoop.
Import Output Batches.

Lemma N_words : N = (18 * steps)%nat.
Proof. reflexivity. Qed.

Lemma buffers_succ (g0 : Scalar.ranluxI_scalar) (k : nat) :
  buffers g0 (k + 1)
  = buffers g0 k ++ [export_stream (advance (steps * k) g0) steps].
Proof.
  unfold buffers. rewrite seq_app, map_app. reflexivity.
Qed.

Lemma buffers_concat (g0 : Scalar.ranluxI_scalar) (k : nat) :
  concat (buffers g0 k) = export_stream g0 (steps * k).
Proof.
  induction k as [| k IH].
  - rewrite Nat.mul_0_r. reflexivity.
  - replace (S k) with (k + 1)%nat by lia.
    rewrite buffers_succ, concat_app, IH. cbn [concat].
    rewrite app_nil_r, <- export_stream_add. f_equal. lia.
Qed.

Lemma buffers_full (g0 : Scalar.ranluxI_scalar) (k : nat) :
  Forall (fun b => length b = N) (buffers g0 k).
Proof.
  unfold buffers. apply Forall_map, Forall_forall. intros i _.
  rewrite export_stream_length. reflexivity.
Qed.

Lemma output_loop_spec (g0 : Scalar.ranluxI_scalar) (rcs : list Z)
    (k : nat) (t0 : Z) :
  0 <= t0 < 2 ^ 64 ->
  loop_post g0 k t0 rcs
    (output_loop rcs (advance (steps * k) g0) t0 (buffers g0 k)).
Proof.
  revert k t0; induction rcs as [| rc rcs IH]; intros k t0 Ht.
  - cbn [output_loop loop_post length returned fold_right].
    rewrite !Nat.add_0_r, Z.add_0_r, Z.mod_small by exact Ht.
    split; [intros i Hi; lia | auto].
  - cbn [output_loop]. rewrite fill_spec.
    rewrite <- advance_add, <- buffers_succ.
    destruct (Z.ltb_spec rc (Z.of_nat N)) as [Hlt | Hge].
    + cbn [loop_post]. exists 0%nat.
      split; [cbn; lia |]. split; [exact Hlt |].
      split; [intros i Hi; lia |].
      cbn [firstn returned fold_right]. rewrite Z.add_0_r. auto.
    + replace (steps * k + steps)%nat with (steps * (k + 1))%nat by lia.
      assert (Ht1 : 0 <= (t0 + rc) mod 2 ^ 64 < 2 ^ 64)
        by (apply Z.mod_pos_bound; lia).
      specialize (IH (k + 1)%nat _ Ht1).
      destruct (output_loop rcs _ _ _) as [| total offered | g total offered];
        cbn [loop_post] in *.
      * exact IH.
      * destruct IH as (j & Hj & Hlt & Hfull & Et & Eo).
        exists (S j). cbn [length nth].
        split; [lia |]. split; [exact Hlt |].
        split.
        { intros [| i] Hi; [exact Hge | apply Hfull; lia]. }
        split.
        { rewrite Et. change (firstn (S (S j)) (rc :: rcs))
            with (rc :: firstn (S j) rcs).
          cbn [returned fold_right]. fold (returned (firstn (S j) rcs)).
          rewrite Zplus_mod_idemp_l. f_equal. lia. }
        rewrite Eo. f_equal. lia.
      * destruct IH as (Hfull & Eg & Et & Eo). cbn [length].
        split.
        { intros [| i] Hi; cbn [nth]; [exact Hge | apply Hfull; lia]. }
        split; [rewrite Eg; f_equal; lia |].
        split.
        { rewrite Et. cbn [returned fold_right]. fold (returned rcs).
          rewrite Zplus_mod_idemp_l. f_equal. lia. }
        rewrite Eo. f_equal. lia.
Qed.

End OutputLoop.

(** X8: [output_to_file] does nothing further when [fopen] fails.
    Otherwise, whatever [fwrite] returns, the loop returns at the first call
    whose result is below N = 18 x 2048 and not before; every buffer it
    hands to [fwrite] holds N words; buffer [i] holds the exports of states
    [2048 i + 1] to [2048 (i + 1)] of the engine seeded with 3124, so the
    buffers in order are the exports of its consecutive states, 18 words
    per state, none skipped or repeated; and [total] is the sum of the
    values [fwrite] returned, modulo 2^64. *)
Theorem output_to_file_stream
    (construct : Z -> Z -> Scalar.ranluxI_scalar) (rcs : list Z) :
  Output.output_to_file construct false rcs = Output.OpenFailed /\
  Output.loop_post (Construction.construct1 construct 3124) 0 0 rcs
    (Output.output_to_file construct true rcs) /\
  match Output.output_to_file construct true rcs with
  | Output.OpenFailed => False
  | Output.ShortWrite _ offered | Output.Running _ _ offered =>
      Forall (fun b => length b = Output.N) offered /\
      concat offered
      = Output.export_stream (Construction.construct1 construct 3124)
          (Output.steps * length offered)
  end.
Proof.
  split; [reflexivity |].
  pose proof (output_loop_spec (Construction.construct1 construct 3124)
                rcs 0 0 ltac:(lia)) as H.
  rewrite !Nat.mul_0_r in H.
  change (Output.loop_post (Construction.construct1 construct 3124) 0 0 rcs
            (Output.output_loop rcs
               (Construction.construct1 construct 3124) 0 [])) in H.
  unfold Output.output_to_file.
  split; [exact H |].
  destruct (Output.output_loop rcs _ 0 [])
    as [| total offered | g total offered]; cbn [Output.loop_post] in H.
  - exact H.
  - destruct H as (j & _ & _ & _ & _ & Eo). subst offered.
    split; [apply buffers_full |].
    rewrite buffers_concat. unfold Output.buffers.
    rewrite length_map, length_seq. reflexivity.
  - destruct H as (_ & _ & _ & Eo). subst offered.
    split; [apply buffers_full |].
    rewrite buffers_concat. unfold Output.buffers.
    rewrite length_map, length_seq. reflexivity.
Qed.

(** ** What the operations never touch *)

Lemma scalar_refilled (g : Scalar.ranluxI_scalar) :
  ScalarInv.wf g ->
  let g1 := if 24 <=? Scalar._pos g
            then Scalar.nextstate (Scalar._p g)
                   (Scalar.mk (Scalar._x g) (Scalar._c g) (Scalar._p g) 0)
            else g in
  ScalarInv.lanes_ok (Scalar._x g1) /\ 0 <= Scalar._pos g1 < 24 /\
  Scalar._p g1 = Scalar._p g.
Proof.
  intros Hg g1; subst g1.
  destruct (Z.leb_spec 24 (Scalar._pos g)) as [Hge | Hlt].
  - assert (Hz : ScalarInv.wf (Scalar.mk (Scalar._x g) (Scalar._c g)
                                 (Scalar._p g) 0))
      by (destruct Hg as (? & ? & ?); unfold ScalarInv.wf; cbn;
          split; [| split]; auto; lia).
    apply (nextstate_wf (Scalar._p g)) in Hz.
    destruct (nextstate_fields (Scalar._p g)
                (Scalar.mk (Scalar._x g) (Scalar._c g) (Scalar._p g) 0))
      as (_ & _ & Ep & Epos).
    destruct Hz as (? & ? & ?). rewrite Epos, Ep; cbn.
    split; [| split]; auto; lia.
  - destruct Hg as (? & ? & ?). split; [| split]; auto; lia.
Qed.

(** X9: a draw never reads outside the state array.  On every engine
    reachable from a well-formed one, [operator()] leaves the cursor between
    1 and 24 (between 1 and 24 x width on the SIMD engines) and the value it
    returns is the element just before the cursor of the array it leaves
    behind, an index inside the array. *)
Theorem draw_reads_inside_the_state :
  (forall g0 g : Scalar.ranluxI_scalar,
     ScalarInv.wf g0 -> ScalarInv.reachable g0 g ->
     let v := fst (Scalar.operator_call g) in
     let g' := snd (Scalar.operator_call g) in
     1 <= Scalar._pos g' <= 24 /\
     (Z.to_nat (Scalar._pos g' - 1) < length (Scalar._x g'))%nat /\
     v = tofloat24 (nth (Z.to_nat (Scalar._pos g' - 1)) (Scalar._x g') 0)) /\
  (forall g0 g : SIMD.engine,
     SIMDInv.wf 4 g0 -> SIMDInv.reachable 4 g0 g ->
     let v := fst (SSE.operator_call g) in
     let g' := snd (SSE.operator_call g) in
     1 <= SIMD._pos g' <= 4 * 24 /\
     (Z.to_nat (SIMD._pos g' - 1) < length (SIMD.flat g'))%nat /\
     v = tofloat24 (nth (Z.to_nat (SIMD._pos g' - 1)) (SIMD.flat g') 0)) /\
  (forall g0 g : SIMD.engine,
     SIMDInv.wf 8 g0 -> SIMDInv.reachable 8 g0 g ->
     let v := fst (AVX.operator_call g) in
     let g' := snd (AVX.operator_call g) in
     1 <= SIMD._pos g' <= 8 * 24 /\
     (Z.to_nat (SIMD._pos g' - 1) < length (SIMD.flat g'))%nat /\
     v = tofloat24 (nth (Z.to_nat (SIMD._pos g' - 1)) (SIMD.flat g') 0)).
Proof.
  assert (SIMDcase : forall W : nat, (0 < W)%nat ->
    forall g0 g : SIMD.engine,
      SIMDInv.wf W g0 -> SIMDInv.reachable W g0 g ->
      let v := fst (SIMD.operator_call (Z.of_nat W) g) in
      let g' := snd (SIMD.operator_call (Z.of_nat W) g) in
      1 <= SIMD._pos g' <= Z.of_nat W * 24 /\
      (Z.to_nat (SIMD._pos g' - 1) < length (SIMD.flat g'))%nat /\
      v = tofloat24 (nth (Z.to_nat (SIMD._pos g' - 1)) (SIMD.flat g') 0)).
  { intros W HW g0 g H0 Hr.
    pose proof (simd_reachable_wf W HW g0 g H0 Hr) as Hg.
    pose proof (simd_refill_wf W HW g Hg) as H. cbv zeta in H.
    unfold SIMD.operator_call; cbv zeta.
    set (g1 := if Z.of_nat W * 24 <=? SIMD._pos g then _ else g) in *.
    destruct H as (Hs & _ & Hpos).
    cbn [fst snd SIMD._pos SIMD._x SIMD.flat].
    unfold SIMD.flat; cbn [SIMD._x].
    replace (SIMD._pos g1 + 1 - 1) with (SIMD._pos g1) by lia.
    split; [lia |]. split.
    - rewrite (shape_flat_length W) by assumption. lia.
    - rewrite lane_i32; [reflexivity |].
      apply nth_Forall; [apply (shape_flat_lanes W); assumption |].
      rewrite (shape_flat_length W) by assumption. lia. }
  split; [| split].
  - intros g0 g H0 Hr.
    pose proof (reachable_wf g0 g H0 Hr) as Hg.
    pose proof (scalar_refilled g Hg) as H. cbv zeta in H.
    unfold Scalar.operator_call; cbv zeta.
    set (g1 := if 24 <=? Scalar._pos g then _ else g) in *.
    destruct H as ((Hlen & Hall) & Hpos & _).
    cbn [fst snd Scalar._pos Scalar._x].
    replace (Scalar._pos g1 + 1 - 1) with (Scalar._pos g1) by lia.
    split; [lia |]. split; [lia |].
    rewrite lane_i32; [reflexivity |].
    apply nth_Forall; [assumption | lia].
  - intros g0 g H0 Hr. apply (SIMDcase 4%nat ltac:(lia) g0 g H0 Hr).
  - intros g0 g H0 Hr. apply (SIMDcase 8%nat ltac:(lia) g0 g H0 Hr).
Qed.

Lemma draw_reads_inside_the_state_witness :
  let g := fst (Scalar.nextstate_and_get_uint32_vector ScalarInv.sample) in
  let g4 := SIMD.nextstate 3 (SIMDInv.sample 4) in
  let g8 := fst (AVX.nextstate_and_get_uint32_vector (SIMDInv.sample 8)) in
  (ScalarInv.wf ScalarInv.sample /\
   1 <= Scalar._pos (snd (Scalar.operator_call g)) <= 24) /\
  (SIMDInv.wf 4 (SIMDInv.sample 4) /\
   1 <= SIMD._pos (snd (SSE.operator_call g4)) <= 4 * 24) /\
  (SIMDInv.wf 8 (SIMDInv.sample 8) /\
   1 <= SIMD._pos (snd (AVX.operator_call g8)) <= 8 * 24).
Proof.
  intros g g4 g8.
  destruct draw_reads_inside_the_state as (T1 & T4 & T8).
  split; [| split].
  - split; [exact sample_wf |].
    apply (T1 ScalarInv.sample g sample_wf).
    apply ScalarInv.reach_export, ScalarInv.reach_start.
  - split; [exact sse_sample_wf |].
    apply (T4 (SIMDInv.sample 4) g4 sse_sample_wf).
    apply SIMDInv.reach_next, SIMDInv.reach_start.
  - split; [exact avx_sample_wf |].
    apply (T8 (SIMDInv.sample 8) g8 avx_sample_wf).
    apply (SIMDInv.reach_export 8), SIMDInv.reach_start.
Defined.

(** ** Streaming the LCG state *)

Section Output64Facts.
Import Output64.

Variable ranluxpp : Type.
Variable ranluxpp_make1 : Z -> ranluxpp.
Variable ranluxpp_getstate : ranluxpp -> list Z.
Variable ranluxpp_nextstate : ranluxpp -> ranluxpp.

Local Abbreviation w9 := (words9 ranluxpp ranluxpp_getstate).
Local Abbreviation fill64 :=
  (fill ranluxpp ranluxpp_getstate ranluxpp_nextstate).
Local Abbreviation stream64 :=
  (state_stream ranluxpp ranluxpp_getstate ranluxpp_nextstate).
Local Abbreviation loop64 :=
  (output_loop ranluxpp ranluxpp_getstate ranluxpp_nextstate).
Local Abbreviation post64 :=
  (loop_post ranluxpp ranluxpp_getstate ranluxpp_nextstate).
Local Abbreviation bufs64 :=
  (buffers ranluxpp ranluxpp_getstate ranluxpp_nextstate).

Lemma words9_length (g : ranluxpp) : length (w9 g) = 9%nat.
Proof. unfold words9. rewrite length_map, length_seq. reflexivity. Qed.

Lemma state_stream_succ_l (g : ranluxpp) (m : nat) :
  stream64 g (S m) = w9 g ++ stream64 (ranluxpp_nextstate g) m.
Proof.
  unfold state_stream. cbn [seq map concat Nat.iter]. f_equal.
  rewrite <- seq_shift, map_map. f_equal.
  apply map_ext; intros i. rewrite Nat.iter_succ_r. reflexivity.
Qed.

Lemma state_stream_length (g : ranluxpp) (m : nat) :
  length (stream64 g m) = (9 * m)%nat.
Proof.
  induction m as [| m IH] in g |- *; [reflexivity |].
  rewrite state_stream_succ_l, length_app, words9_length, IH. lia.
Qed.

Lemma iter_add {A} (f : A -> A) (a b : nat) (x : A) :
  Nat.iter (a + b) f x = Nat.iter b f (Nat.iter a f x).
Proof.
  revert x; induction a as [| a IH]; intros x; [reflexivity |].
  cbn [Nat.add]. rewrite Nat.iter_succ_r, IH, <- Nat.iter_succ_r.
  reflexivity.
Qed.

Lemma state_stream_add (g : ranluxpp) (a b : nat) :
  stream64 g (a + b)
  = stream64 g a ++ stream64 (Nat.iter a ranluxpp_nextstate g) b.
Proof.
  revert g; induction a as [| a IH]; intros g; [reflexivity |].
  cbn [Nat.add]. rewrite !state_stream_succ_l, IH, <- app_assoc.
  rewrite Nat.iter_succ_r. reflexivity.
Qed.

Lemma fill64_spec (n : nat) (g : ranluxpp) :
  fill64 n g = (Nat.iter n ranluxpp_nextstate g, stream64 g n).
Proof.
  revert g; induction n as [| n IH]; intros g; cbn [fill]; [reflexivity |].
  rewrite IH, state_stream_succ_l, Nat.iter_succ_r. reflexivity.
Qed.

Lemma buffers64_succ (g0 : ranluxpp) (k : nat) :
  bufs64 g0 (k + 1)
  = bufs64 g0 k
    ++ [stream64 (Nat.iter (steps * k) ranluxpp_nextstate g0) steps].
Proof.
  unfold buffers. rewrite seq_app, map_app. reflexivity.
Qed.

Lemma buffers64_concat (g0 : ranluxpp) (k : nat) :
  concat (bufs64 g0 k) = stream64 g0 (steps * k).
Proof.
  induction k as [| k IH].
  - rewrite Nat.mul_0_r. reflexivity.
  - replace (S k) with (k + 1)%nat by lia.
    rewrite buffers64_succ, concat_app, IH. cbn [concat].
    rewrite app_nil_r, <- state_stream_add. f_equal. lia.
Qed.

Lemma buffers64_full (g0 : ranluxpp) (k : nat) :
  Forall (fun b => length b = N) (bufs64 g0 k).
Proof.
  unfold buffers. apply Forall_map, Forall_forall. intros i _.
  rewrite state_stream_length. reflexivity.
Qed.

Lemma output_loop64_spec (g0 : ranluxpp) (rcs : list Z) (k : nat) (t0 : Z) :
  0 <= t0 < 2 ^ 64 ->
  post64 g0 k t0 rcs
    (loop64 rcs (Nat.iter (steps * k) ranluxpp_nextstate g0) t0
       (bufs64 g0 k)).
Proof.
  revert k t0; induction rcs as [| rc rcs IH]; intros k t0 Ht.
  - cbn [output_loop loop_post length Output.returned fold_right].
    rewrite !Nat.add_0_r, Z.add_0_r, Z.mod_small by exact Ht.
    split; [intros i Hi; lia | auto].
  - cbn [output_loop]. rewrite fill64_spec.
    rewrite <- iter_add, <- buffers64_succ.
    destruct (Z.ltb_spec rc (Z.of_nat N)) as [Hlt | Hge].
    + cbn [loop_post]. exists 0%nat.
      split; [cbn; lia |]. split; [exact Hlt |].
      split; [intros i Hi; lia |].
      cbn [firstn Output.returned fold_right]. rewrite Z.add_0_r. auto.
    + replace (steps * k + steps)%nat with (steps * (k + 1))%nat by lia.
      assert (Ht1 : 0 <= (t0 + rc) mod 2 ^ 64 < 2 ^ 64)
        by (apply Z.mod_pos_bound; lia).
      specialize (IH (k + 1)%nat _ Ht1).
      destruct (loop64 rcs _ _ _) as [| total offered | g total offered];
        cbn [loop_post] in *.
      * exact IH.
      * destruct IH as (j & Hj & Hlt & Hfull & Et & Eo).
        exists (S j). cbn [length nth].
        split; [lia |]. split; [exact Hlt |].
        split.
        { intros [| i] Hi; [exact Hge | apply Hfull; lia]. }
        split.
        { rewrite Et. change (firstn (S (S j)) (rc :: rcs))
            with (rc :: firstn (S j) rcs).
          cbn [Output.returned fold_right].
          fold (Output.returned (firstn (S j) rcs)).
          rewrite Zplus_mod_idemp_l. f_equal. lia. }
        rewrite Eo. f_equal. lia.
      * destruct IH as (Hfull & Eg & Et & Eo). cbn [length].
        split.
        { intros [| i] Hi; cbn [nth]; [exact Hge | apply Hfull; lia]. }
        split; [rewrite Eg; f_equal; lia |].
        split.
        { rewrite Et. cbn [Output.returned fold_right].
          fold (Output.returned rcs).
          rewrite Zplus_mod_idemp_l. f_equal. lia. }
        rewrite Eo. f_equal. lia.
Qed.

(** X10: the [output_to_file] of ranluxpp_test does nothing further when
    [fopen] fails.  Otherwise, whatever [fwrite] returns, the loop returns at
    the first call whose result is below N = 9 x 1024 and not before; every
    buffer it hands to [fwrite] holds N words; buffer [i] holds the nine
    state words of states [1024 i] to [1024 i + 1023] of the engine seeded
    with 3124, so the buffers in order are its consecutive states, beginning
    with the seeded state itself, none skipped or repeated; and [total] is
    the sum of the values [fwrite] returned, modulo 2^64. *)
Theorem output_to_file_lcg_stream (rcs : list Z) :
  output_to_file ranluxpp ranluxpp_make1 ranluxpp_getstate
    ranluxpp_nextstate false rcs
  = OpenFailed ranluxpp /\
  post64 (ranluxpp_make1 3124) 0 0 rcs
    (output_to_file ranluxpp ranluxpp_make1 ranluxpp_getstate
       ranluxpp_nextstate true rcs) /\
  match output_to_file ranluxpp ranluxpp_make1 ranluxpp_getstate
          ranluxpp_nextstate true rcs with
  | OpenFailed _ => False
  | ShortWrite _ _ offered | Running _ _ _ offered =>
      Forall (fun b => length b = N) offered /\
      concat offered
      = stream64 (ranluxpp_make1 3124) (steps * length offered)
  end.
Proof.
  split; [reflexivity |].
  pose proof (output_loop64_spec (ranluxpp_make1 3124) rcs 0 0 ltac:(lia))
    as H.
  rewrite !Nat.mul_0_r in H.
  change (post64 (ranluxpp_make1 3124) 0 0 rcs
            (loop64 rcs (ranluxpp_make1 3124) 0 [])) in H.
  unfold output_to_file.
  split; [exact H |].
  destruct (loop64 rcs _ 0 []) as [| total offered | g total offered];
    cbn [loop_post] in H.
  - exact H.
  - destruct H as (j & _ & _ & _ & _ & Eo). subst offered.
    split; [apply buffers64_full |].
    rewrite buffers64_concat. unfold buffers.
    rewrite length_map, length_seq. reflexivity.
  - destruct H as (_ & _ & _ & Eo). subst offered.
    split; [apply buffers64_full |].
    rewrite buffers64_concat. unfold buffers.
    rewrite length_map, length_seq. reflexivity.
Qed.

End Output64Facts.

(** ** The export advances first and leaves the cursor alone *)






